(** * Duplicate file finder: size classes refined by a two-step fingerprint

    A shallow embedding of [main.cpp]: the content fingerprint
    ([compute_hash], [partial_hash], [full_hash]), the size classifier
    ([group_by_size]), the two-step refiner ([find_duplicates]) and the
    wasted-space report of [main].

    Conventions.
    - [size_t] and [uintmax_t] are 64 bits wide; a value is a [Z] in
      [0, 2^64) and every operation that can leave that range is followed by
      [wrap64].
    - [std::hash<std::string>] is implementation defined; the development is
      parametrised by it (section variable [hasher]).
    - [std::unordered_map] is a [gmap]; its iteration order, which the
      standard leaves open, is the order of [map_to_list].
    - The file system is a finite tree; it does not change during a run.
    - A directory entry knows its own type from the listing of its
      directory, as the entries of the C++ libraries do where the system
      provides it; its size and the type behind a symbolic link are read
      when they are asked for, and that can fail. In a directory that may be
      read but not searched, the regular files are [Unstatable], the
      symbolic links [unresolvable] and the directories not [listable]. *)

From Equations Require Import Equations.
From Equations.Prop Require Import Logic.
From Stdlib Require Import ZArith Lia List Strings.Byte String Ascii.
From stdpp Require Import gmap strings list fin_maps.

Local Open Scope Z_scope.
#[local] Set Warnings "-clear-no-such-hyp".

(** ** Machine integers *)

Definition wrap64 (z : Z) : Z := z mod 2 ^ 64.

(** ** Data structures (main.cpp, lines 16-23) *)

Abbreviation FileSize := Z (only parsing).
Abbreviation HashString := string (only parsing).
(** A path is the list of names that leads from the scanned directory to the
    entry. *)
Abbreviation path := (list string) (only parsing).
Abbreviation PathList := (list (list string)) (only parsing).
Abbreviation SizeGroupMap := (gmap Z (list (list string))) (only parsing).
Abbreviation HashGroupMap := (gmap string (list (list string))) (only parsing).

Definition PARTIAL_READ_SIZE : Z := 4096.

(** ** Exceptions

    A call either returns or throws [std::filesystem::filesystem_error].
    Nothing in main.cpp catches, so a throw ends the run
    ([std::terminate]). *)

Inductive outcome (A : Type) : Type :=
| Returned (a : A)
| Thrown.
Arguments Returned {A} a.
Arguments Thrown {A}.

(** Sequencing, written [x ← c; k]: a throw in [c] skips [k]. *)
#[export] Instance outcome_bind : MBind outcome := λ A B k c,
  match c with
  | Returned a => k a
  | Thrown => Thrown
  end.

(** ** The file system

    What [std::filesystem] and [std::ifstream] let the program see of the
    tree below the scanned directory. *)

(** What a symbolic link resolves to. *)
Inductive link_target : Type :=
| to_file (content : list byte) (readable : bool)
| to_directory
| to_special
| dangling
    (** the target is missing *)
| unresolvable.
    (** following the link fails otherwise: a loop of links, a directory on
        the way that may not be searched *)

#[warnings="-register-all"] Inductive node : Type :=
| File (content : list byte) (readable : bool)
    (** a regular file; [readable]: it can be opened for reading (its
        status can be read either way) *)
| Directory (listable : bool) (children : list (string * node))
    (** [listable]: the directory can be opened for iteration *)
| Symlink (target : link_target)
| Special
    (** a socket, a pipe, a device *)
| Unstatable.
    (** a regular file that its directory lists, but of which nothing more
        can be learnt: the directory may be read but not searched, so that
        [stat] and [open] fail with permission denied *)

(** [std::filesystem::file_type]; [none] is the type of a status that could
    not be read. *)
Inductive file_type : Type :=
| regular | directory | symlink | special | not_found | none.

#[export] Instance file_type_eq_dec : EqDecision file_type.
Proof. solve_decision. Defined.

Definition file_type_eqb (s t : file_type) : bool :=
  match s, t with
  | regular, regular | directory, directory | symlink, symlink
  | special, special | not_found, not_found | none, none => true
  | _, _ => false
  end.

(** [symlink_status]: the type of the entry itself, which the listing of
    its directory gives. *)
Definition symlink_status (n : node) : file_type :=
  match n with
  | File _ _ => regular
  | Directory _ _ => directory
  | Symlink _ => symlink
  | Special => special
  | Unstatable => regular
  end.

(** [status]: the type of what the entry denotes, symbolic links followed. A
    link whose target is missing has the type [not_found]; that is not an
    error. A status that cannot be read is an error: the type is [none], and
    the functions that throw on errors throw. *)
Definition status (n : node) : file_type :=
  match n with
  | Symlink (to_file _ _) => regular
  | Symlink to_directory => directory
  | Symlink to_special => special
  | Symlink dangling => not_found
  | Symlink unresolvable => none
  | Unstatable => none
  | _ => symlink_status n
  end.

(** The bytes behind a name and whether they can be read; [stat] and [open]
    both follow symbolic links. *)
Definition regular_data (n : node) : option (list byte * bool) :=
  match n with
  | File content readable => Some (content, readable)
  | Symlink (to_file content readable) => Some (content, readable)
  | _ => None
  end.

Fixpoint find_child (name : string) (children : list (string * node))
  : option node :=
  match children with
  | [] => None
  | (name', child) :: rest =>
      if String.eqb name name' then Some child else find_child name rest
  end.

(** Path resolution from the scanned directory. *)
Fixpoint lookup_path (fs : node) (p : list string) : option node :=
  match p with
  | [] => Some fs
  | name :: p' =>
      match fs with
      | Directory _ children =>
          match find_child name children with
          | Some child => lookup_path child p'
          | None => None
          end
      | _ => None
      end
  end.

(** [std::filesystem::file_size(p)]: throws unless [p] denotes a regular
    file whose status can be read. *)
Definition file_size_of (n : node) : outcome Z :=
  match regular_data n with
  | Some (content, _) => Returned (Z.of_nat (length content))
  | None => Thrown
  end.

Definition fs_file_size (fs : node) (p : list string) : outcome Z :=
  match lookup_path fs p with
  | Some n => file_size_of n
  | None => Thrown
  end.

(** [std::filesystem::directory_entry]. *)
Record directory_entry : Type := Entry {
  entry_path : list string;
  entry_node : node
}.

(** [entry.is_regular_file()]. The entry holds the type that the listing
    gave; for everything but a symbolic link that answers the question. For
    a symbolic link the status of the target is read, and an error other
    than a missing target is thrown. *)
Definition is_regular_file (entry : directory_entry) : outcome bool :=
  match symlink_status (entry_node entry) with
  | symlink =>
      match status (entry_node entry) with
      | none => Thrown
      | kind => Returned (file_type_eqb kind regular)
      end
  | kind => Returned (file_type_eqb kind regular)
  end.

(** [entry.file_size()]: the size is not part of the listing; it is read
    with [stat], and the call throws when that fails. *)
Definition file_size (entry : directory_entry) : outcome Z :=
  file_size_of (entry_node entry).

(** The entries of one directory, in the order of its listing, each
    directory among them followed by what [enter] finds below it. *)
Fixpoint list_directory
    (enter : list string → node → outcome (list directory_entry))
    (here : list string) (children : list (string * node))
  : outcome (list directory_entry) :=
  match children with
  | [] => Returned []
  | (name, child) :: rest =>
      below ← match child with
              | Directory _ _ => enter (here ++ [name]) child
              | _ => Returned []
              end;
      after ← list_directory enter here rest;
      Returned (Entry (here ++ [name]) child :: below ++ after)
  end.

(** [std::filesystem::recursive_directory_iterator(directory)] with the
    default options: every entry below the directory, an entry that is a
    directory followed by what is below it; directories behind symbolic
    links are not entered ([follow_directory_symlink] is off); a directory
    that cannot be opened makes the iterator throw
    ([skip_permission_denied] is off). The range-for of [group_by_size]
    sees the entries in this order, or the exception. *)
Fixpoint recursive_directory_iterator (here : list string) (n : node)
  : outcome (list directory_entry) :=
  match n with
  | Directory true children =>
      list_directory recursive_directory_iterator here children
  | _ => Thrown
  end.

(** Names are unique within a directory. *)
Fixpoint unique_among (unique : node → bool) (children : list (string * node))
  : bool :=
  match children with
  | [] => true
  | (name, child) :: rest =>
      match find_child name rest with Some _ => false | None => true end
      && unique child && unique_among unique rest
  end.

Fixpoint unique_names (n : node) : bool :=
  match n with
  | Directory _ children => unique_among unique_names children
  | _ => true
  end.

(** Some directory below (or at) [n], not behind a symbolic link, cannot be
    opened. *)
Fixpoint blocked (n : node) : bool :=
  match n with
  | Directory listable children =>
      negb listable || existsb (λ c, blocked c.2) children
  | _ => false
  end.

(** [reaches n q m]: the names [q] lead from [n] to [m] through directories
    (not through symbolic links). *)
Inductive reaches : node → list string → node → Prop :=
| reaches_here n : reaches n [] n
| reaches_child listable children name child q m :
    (name, child) ∈ children →
    reaches child q m →
    reaches (Directory listable children) (name :: q) m.

(** ** Input streams

    What [compute_hash] uses of [std::ifstream]: the bytes not yet consumed,
    the stream state tested by [while (file)], and [gcount()]. *)

Record ifstream : Type := Stream {
  pending : list byte;
  good : bool;
  gcount : Z
}.

(** [file.read(buffer, n)]: extracts [n] bytes, or what is left when the end
    of the file comes first, in which case [failbit] and [eofbit] are set. *)
Definition read (file : ifstream) (n : Z) : list byte * ifstream :=
  let got := take (Z.to_nat n) (pending file) in
  (got,
   {| pending := drop (Z.to_nat n) (pending file);
      good := good file && (n <=? Z.of_nat (length (pending file)));
      gcount := Z.of_nat (length got) |}).

(** A stream just opened on a file with the given bytes. *)
Definition opened (content : list byte) : ifstream :=
  {| pending := content; good := true; gcount := 0 |}.

(** [std::ifstream file(filepath, std::ios::binary)]; [None] is the stream
    for which [!file] holds. Only paths of entries that [is_regular_file]
    accepted reach this point. *)
Definition ifstream_open (fs : node) (filepath : list string) : option ifstream :=
  match lookup_path fs filepath with
  | Some n =>
      match regular_data n with
      | Some (content, true) => Some (opened content)
      | _ => None
      end
  | None => None
  end.

(** ** Rendering: [std::hex << std::setfill('0') << std::setw(16)] *)

Definition hex_digit (d : Z) : ascii :=
  if d <? 10 then ascii_of_nat (Z.to_nat (48 + d))
  else ascii_of_nat (Z.to_nat (87 + d)).

(** The [n] least significant hexadecimal digits of [z], most significant
    first. A 64-bit value has at most 16 digits, so that its zero-padded
    field of width 16 is [hex_field 16]. *)
Fixpoint hex_field (n : nat) (z : Z) : string :=
  match n with
  | O => EmptyString
  | S k => hex_field k (z / 16) +:+ String (hex_digit (z mod 16)) EmptyString
  end.

Section Fingerprint.

(** [std::hash<std::string>], on the bytes of the string. *)
Variable hasher : list byte → Z.

(** The two accumulators and the byte counter of [compute_hash]. *)
Record accumulators : Type := Acc {
  hash1 : Z;
  hash2 : Z;
  total_read : Z
}.

(** Lines 50-55: the update for one non-empty chunk. The chunk is
    [std::string(buffer, bytes_read)], so that its length is [bytes_read]. *)
Definition absorb (chunk : list byte) (a : accumulators) : accumulators :=
  {| hash1 := Z.lxor (hash1 a)
                (wrap64 (wrap64 (hasher chunk) + 0x9e3779b9
                         + wrap64 (Z.shiftl (hash1 a) 6)
                         + Z.shiftr (hash1 a) 2));
     hash2 := Z.lxor (hash2 a) (wrap64 (wrap64 (hasher chunk) * 31 + hash2 a));
     total_read := wrap64 (total_read a + Z.of_nat (length chunk)) |}.

(** Lines 42-45. *)
Definition to_read (max_bytes : Z) (a : accumulators) : Z :=
  if 0 <? max_bytes then Z.min 8192 (wrap64 (max_bytes - total_read a))
  else 8192.

(** How a turn of the loop body ends: at [break], or at the closing brace
    with the stream and the accumulators as they are then. *)
Inductive turn_end : Type :=
| Break (a : accumulators)
| Again (file : ifstream) (a : accumulators).

(** Lines 42-59, one turn of the loop body. *)
Definition turn (max_bytes : Z) (file : ifstream) (a : accumulators)
  : turn_end :=
  let '(chunk, file) := read file (to_read max_bytes a) in
  let bytes_read := gcount file in
  let a := if 0 <? bytes_read then absorb chunk a else a in
  if (0 <? max_bytes) && (max_bytes <=? total_read a) then Break a
  else Again file a.

(** What is left to do: nothing once the stream has failed, otherwise at
    most one turn per pending byte and one more to meet the end. *)
Definition turns_left (file : ifstream) : nat :=
  if good file then S (length (pending file)) else O.

(** Lines 41-60, the loop [while (file) { ... }].

    A request for no byte at all would leave a good stream as it is and the
    loop would spin; the second half of the entry test excludes it, which is
    what makes the function total. [to_read_positive] shows that the test
    never fails in a state [compute_hash] can reach, where the model
    therefore is the loop of the source. *)
Equations? read_loop (max_bytes : Z) (file : ifstream) (a : accumulators)
  : accumulators by wf (turns_left file) lt :=
  read_loop max_bytes file a
    with inspect (good file && (0 <? to_read max_bytes a)) := {
    | exist _ false _ := a
    | exist _ true Hgo with inspect (turn max_bytes file a) := {
      | exist _ (Break a') _ := a'
      | exist _ (Again file' a') Hturn := read_loop max_bytes file' a' } }.
Proof.
  apply andb_prop in Hgo as [Hg Hpos].
  unfold turn, read in Hturn. case_match; [done|]. injection Hturn as <- _.
  unfold turns_left. simpl. rewrite Hg. simpl.
  clear H. apply Z.ltb_lt in Hpos.
  destruct (Z.leb_spec (to_read max_bytes a) (Z.of_nat (length (pending file))));
    [rewrite length_drop|]; lia.
Qed.

(** Lines 34-38. *)
Definition initial : accumulators :=
  {| hash1 := 0; hash2 := 0; total_read := 0 |}.

(** Lines 62-66. *)
Definition hex_string (a : accumulators) : string :=
  hex_field 16 (hash1 a) +:+ hex_field 16 (hash2 a).

(** Lines 34-66: what [compute_hash] does with a stream that is open. *)
Definition hash_of_stream (max_bytes : Z) (file : ifstream) : string :=
  hex_string (read_loop max_bytes file initial).

(** The fingerprint of a sequence of bytes: that of a file that holds
    exactly these bytes, read to its end. *)
Definition fingerprint_of (bytes : list byte) : string :=
  hash_of_stream 0 (opened bytes).

(** Lines 28-67. *)
Definition compute_hash (fs : node) (filepath : list string) (max_bytes : Z)
  : string :=
  match ifstream_open fs filepath with
  | None => EmptyString
  | Some file => hash_of_stream max_bytes file
  end.

(** Lines 70-72. *)
Definition partial_hash (fs : node) (filepath : list string) : string :=
  compute_hash fs filepath PARTIAL_READ_SIZE.

(** Lines 75-77. *)
Definition full_hash (fs : node) (filepath : list string) : string :=
  compute_hash fs filepath 0.

(** ** Phase 1: group by file size (lines 82-102) *)

(** A range-for whose body may throw. *)
Fixpoint for_each {A S : Type} (body : S → A → outcome S) (l : list A) (s : S)
  : outcome S :=
  match l with
  | [] => Returned s
  | x :: l' => s' ← body s x; for_each body l' s'
  end.

(** [groups[key].push_back(p)]: [operator[]] makes the empty list for a key
    that is not there yet. *)
Definition push_back `{Countable K} (groups : gmap K (list (list string)))
    (key : K) (p : list string) : gmap K (list (list string)) :=
  <[key := default [] (groups !! key) ++ [p]]> groups.

Definition group_by_size (fs : node) : outcome (gmap Z (list (list string))) :=
  entries ← recursive_directory_iterator [] fs;
  size_groups ←
    for_each (λ size_groups entry,
                is_regular ← is_regular_file entry;
                if is_regular : bool then
                  size ← file_size entry;
                  Returned (push_back size_groups size (entry_path entry))
                else Returned size_groups)
             entries ∅;
  (* Remove groups with only 1 file *)
  Returned (filter (λ it, ¬ (length it.2 < 2)%nat) size_groups).

(** ** Phase 2: two-step hashing (lines 111-168) *)

Definition empty (s : string) : bool :=
  match s with EmptyString => true | String _ _ => false end.

(** Lines 131-138 and 149-156: the paths whose hash is not the sentinel,
    grouped by hash. *)
Definition hash_groups (hash_of : list string → string)
    (paths : list (list string)) : gmap string (list (list string)) :=
  foldl (λ groups p,
           let hash := hash_of p in
           if negb (empty hash) then push_back groups hash p else groups)
        ∅ paths.

Definition partial_groups (fs : node) (paths : list (list string))
  : gmap string (list (list string)) :=
  hash_groups (partial_hash fs) paths.

Definition full_groups (fs : node) (candidates : list (list string))
  : gmap string (list (list string)) :=
  hash_groups (full_hash fs) candidates.

(** Lines 159-163: collect confirmed duplicate files. *)
Definition collect (duplicate_groups : list (list (list string)))
    (groups : gmap string (list (list string))) : list (list (list string)) :=
  foldl (λ duplicate_groups '(fhash, dupes),
           if (2 <=? length dupes)%nat then duplicate_groups ++ [dupes]
           else duplicate_groups)
        duplicate_groups (map_to_list groups).

(** Lines 143-164, step B for the partial groups of one size group. *)
Definition step_b (fs : node) (duplicate_groups : list (list (list string)))
    (groups : gmap string (list (list string))) : list (list (list string)) :=
  foldl (λ duplicate_groups '(phash, candidates),
           if (length candidates <? 2)%nat then duplicate_groups (* continue *)
           else collect duplicate_groups (full_groups fs candidates))
        duplicate_groups (map_to_list groups).

Definition find_duplicates (fs : node) : outcome (list (list (list string))) :=
  size_groups ← group_by_size fs;
  Returned
    (foldl (λ duplicate_groups '(size, paths),
              step_b fs duplicate_groups (partial_groups fs paths))
           [] (map_to_list size_groups)).

(** ** The report of [main] (lines 206-254) *)

(** One line of the report (group, number of files, size of each, wasted
    space) and the members listed below it. *)
Record group_line : Type := Line {
  members : list (list string);
  each_size : Z;
  wasted : Z
}.

Record report : Type := Report {
  lines : list group_line;
  total_wasted : Z
}.

(** Lines 234-247, the body of the loop over the groups. [group[0]] of an
    empty vector is undefined; it counts as a failure here, and
    [find_duplicates] emits no empty group. *)
Definition report_group (fs : node) (r : report) (group : list (list string))
  : outcome report :=
  file_size ← match group with
              | first :: _ => fs_file_size fs first
              | [] => Thrown
              end;
  let wasted := wrap64 (file_size * wrap64 (Z.of_nat (length group) - 1)) in
  Returned {| lines := lines r ++ [Line group file_size wasted];
              total_wasted := wrap64 (total_wasted r + wasted) |}.

(** Lines 231-248. *)
Definition report_groups (fs : node) (duplicates : list (list (list string)))
  : outcome report :=
  for_each (report_group fs) duplicates {| lines := []; total_wasted := 0 |}.

(** [main] for the directory that the path entered denotes: [None] is the
    exit with status 1 (not a directory), [Some r] the exit with status 0
    after [r] was printed. [fs::exists] (line 208) throws when the status
    of the path cannot be read. *)
Definition main (fs : node) : outcome (option report) :=
  match fs with
  | Directory _ _ =>
      duplicates ← find_duplicates fs;
      r ← report_groups fs duplicates;
      Returned (Some r)
  | _ =>
      match status fs with
      | none => Thrown
      | _ => Returned None
      end
  end.

(** ** The calls of the hash functions

    [partial_hash] and [full_hash] open a file and read it. Here are the
    loops of [find_duplicates] once more, with a log to which every call is
    added, in the order of the calls. *)

Inductive hash_call : Type :=
| partial_hash_of (filepath : list string)
| full_hash_of (filepath : list string).

(** Lines 133-138 and 151-156. *)
Definition hash_groups_logged (call : list string → hash_call)
    (hash_of : list string → string) (paths : list (list string))
    (log : list hash_call)
  : gmap string (list (list string)) * list hash_call :=
  foldl (λ '(groups, log) p,
           let hash := hash_of p in
           (if negb (empty hash) then push_back groups hash p else groups,
            log ++ [call p]))
        (∅, log) paths.

(** Lines 143-164. *)
Definition step_b_logged (fs : node)
    (duplicate_groups : list (list (list string))) (log : list hash_call)
    (groups : gmap string (list (list string)))
  : list (list (list string)) * list hash_call :=
  foldl (λ '(duplicate_groups, log) '(phash, candidates),
           if (length candidates <? 2)%nat then (duplicate_groups, log)
           else
             let '(full_groups, log) :=
               hash_groups_logged full_hash_of (full_hash fs) candidates log in
             (collect duplicate_groups full_groups, log))
        (duplicate_groups, log) (map_to_list groups).

(** Lines 111-168. *)
Definition find_duplicates_logged (fs : node)
  : outcome (list (list (list string)) * list hash_call) :=
  size_groups ← group_by_size fs;
  Returned
    (foldl (λ '(duplicate_groups, log) '(size, paths),
              let '(partial_groups, log) :=
                hash_groups_logged partial_hash_of (partial_hash fs) paths log in
              step_b_logged fs duplicate_groups log partial_groups)
           ([], []) (map_to_list size_groups)).

(** What the log holds after step B for the partial groups [groups], and
    after the run for the size groups [size_groups]. *)
Definition full_hash_calls (groups : gmap string (list (list string)))
  : list hash_call :=
  '(phash, candidates) ← map_to_list groups;
  if (length candidates <? 2)%nat then [] else full_hash_of <$> candidates.

Definition hash_calls (fs : node) (size_groups : gmap Z (list (list string)))
  : list hash_call :=
  '(size, paths) ← map_to_list size_groups;
  (partial_hash_of <$> paths) ++ full_hash_calls (partial_groups fs paths).

(** ** Notions used in the statements *)

Definition same_hashes (a b : accumulators) : Prop :=
  hash1 a = hash1 b ∧ hash2 a = hash2 b.

(** [g] comes out of step B for the partial groups [groups]. *)
Definition confirmed_in (fs : node) (groups : gmap string (list (list string)))
    (g : list (list string)) : Prop :=
  ∃ phash candidates fhash,
    groups !! phash = Some candidates ∧ (2 ≤ length candidates)%nat
    ∧ full_groups fs candidates !! fhash = Some g ∧ (2 ≤ length g)%nat.

(** [g] is a confirmed group of one of the size groups. *)
Definition confirmed (fs : node) (size_groups : gmap Z (list (list string)))
    (g : list (list string)) : Prop :=
  ∃ size paths,
    size_groups !! size = Some paths
    ∧ confirmed_in fs (partial_groups fs paths) g.

End Fingerprint.

(** ** Grouping, as the statements speak of it

    The three grouping loops of the program have one shape: an item is put
    under its key, or left out when it has none. *)
Section GroupingNotions.

Context {K : Type} {K_eq_dec : EqDecision K} {K_countable : Countable K}.
Context {A : Type}.
Variable key : A → option K.
Variable item : A → list string.

Definition classify (l : list A) (groups : gmap K (list (list string)))
  : gmap K (list (list string)) :=
  foldl (λ groups x,
           match key x with
           | Some k => push_back groups k (item x)
           | None => groups
           end) groups l.

(** The items with key [k], in the order of the list. *)
Definition members_with (k : K) (l : list A) : list (list string) :=
  item <$> filter (λ x, key x = Some k) l.

End GroupingNotions.

(** The key of an entry in the size classifier. *)
Definition size_key (e : directory_entry) : option Z :=
  match is_regular_file e with
  | Returned true =>
      match file_size e with Returned size => Some size | Thrown => None end
  | _ => None
  end.

(** [n] denotes, symbolic links followed, a regular file of [size] bytes. *)
Definition regular_of_size (n : node) (size : Z) : Prop :=
  ∃ content readable,
    regular_data n = Some (content, readable)
    ∧ size = Z.of_nat (length content).

(** The key of a path in a hash grouping. *)
Definition hash_key (hash_of : list string → string) (p : list string)
  : option string :=
  if empty (hash_of p) then None else Some (hash_of p).

(** ** The report, as the statements speak of it *)

(** Wasted space as a number, not as a [uintmax_t]. *)
Definition exact_wasted (l : group_line) : Z :=
  each_size l * (Z.of_nat (length (members l)) - 1).

Definition sum_of (f : group_line → Z) (ls : list group_line) : Z :=
  foldr (λ l s, f l + s) 0 ls.

(** A line is right for its group. *)
Definition line_of_group (fs : node) (l : group_line) : Prop :=
  (∀ p, p ∈ members l → fs_file_size fs p = Returned (each_size l))
  ∧ wasted l = wrap64 (exact_wasted l).

(** ** Trees that differ by a dangling link *)

(** [without_dangling_link fs fs']: [fs'] is [fs] without one dangling
    symbolic link, which may be in any directory of [fs]. *)
Inductive without_dangling_link : node → node → Prop :=
| dangling_here listable before name after :
    without_dangling_link
      (Directory listable (before ++ (name, Symlink dangling) :: after))
      (Directory listable (before ++ after))
| dangling_below listable before name child child' after :
    without_dangling_link child child' →
    without_dangling_link
      (Directory listable (before ++ (name, child) :: after))
      (Directory listable (before ++ (name, child') :: after)).

(** Two lists of entries that the first loop of [group_by_size] cannot tell
    apart. *)
Definition alike (es es' : list directory_entry) : Prop :=
  (Exists (λ e, status (entry_node e) = none) es
   ↔ Exists (λ e, status (entry_node e) = none) es')
  ∧ ∀ groups, classify size_key entry_path es groups
              = classify size_key entry_path es' groups.

(** Some entry below [fs] has a status that cannot be read. *)
Definition status_error_below (fs : node) : Prop :=
  ∃ q n, q ≠ [] ∧ reaches fs q n ∧ status n = none.

(** ** Examples *)

(** A concrete block hash for the examples: 64-bit FNV-1a. *)
Definition fnv1a (chunk : list byte) : Z :=
  foldl (λ h b, wrap64 (Z.lxor h (Z.of_N (Byte.to_N b)) * 1099511628211))
        14695981039346656037 chunk.

(** Two files with the same hundred bytes, a third one of the same size
    with other bytes, and a file that cannot be opened. *)
Definition sample_tree : node :=
  Directory true
    [("a"%string, File (repeat x41 100) true);
     ("b"%string, File (repeat x41 100) true);
     ("c"%string, File (repeat x42 100) true);
     ("sub"%string,
      Directory true [("u"%string, File (repeat x41 100) false)])].

(** Two files of one byte on either side of a directory that cannot be
    opened. *)
Definition locked_tree : node :=
  Directory true
    [("a"%string, File [x41] true);
     ("locked"%string, Directory false []);
     ("b"%string, File [x41] true)].

(** The same two files without the directory. *)
Definition unlocked_tree : node :=
  Directory true
    [("a"%string, File [x41] true); ("b"%string, File [x41] true)].

(** Two files of 6000 bytes that differ in the byte at offset 5000 only. *)
Definition late_difference_tree : node :=
  Directory true
    [("x"%string, File (repeat x41 (Z.to_nat 6000)) true);
     ("y"%string,
      File (repeat x41 (Z.to_nat 5000) ++ x42 :: repeat x41 999) true)].

(** A file of one byte and a symbolic link to it. *)
Definition linked_tree : node :=
  Directory true
    [("a"%string, File [x41] true);
     ("l"%string, Symlink (to_file [x41] true))].

(** Two files of one byte, and between them a directory that can be
    listed but not searched with a file in it. *)
Definition unsearchable_tree : node :=
  Directory true
    [("a"%string, File [x41] true);
     ("d"%string, Directory true [("f"%string, Unstatable)]);
     ("b"%string, File [x41] true)].

(** Two files of one byte, and between them a symbolic link that leads
    back to itself. *)
Definition looping_tree : node :=
  Directory true
    [("a"%string, File [x41] true);
     ("loop"%string, Symlink unresolvable);
     ("b"%string, File [x41] true)].

(** Two files of one byte, and a dangling symbolic link in a directory
    between them. *)
Definition dangling_tree : node :=
  Directory true
    [("a"%string, File [x41] true);
     ("d"%string, Directory true [("gone"%string, Symlink dangling)]);
     ("b"%string, File [x41] true)].

(** The same without the link. *)
Definition no_link_tree : node :=
  Directory true
    [("a"%string, File [x41] true);
     ("d"%string, Directory true []);
     ("b"%string, File [x41] true)].

(** ** The blocks of a file, the range of the accumulators, hexadecimal *)

(** The bytes cut into consecutive blocks of 8192 (the size of [buffer]),
    the last one shorter when the length is no multiple of 8192. The first
    argument bounds the number of blocks. *)
Fixpoint blocks_upto (n : nat) (bytes : list byte) : list (list byte) :=
  match n with
  | O => []
  | S k =>
      match bytes with
      | [] => []
      | _ :: _ =>
          take (Z.to_nat 8192) bytes
          :: blocks_upto k (drop (Z.to_nat 8192) bytes)
      end
  end.

Definition blocks (bytes : list byte) : list (list byte) :=
  blocks_upto (length bytes) bytes.

(** Lines 50-55 for one chunk after the other. *)
Definition absorb_all (hasher : list byte → Z) (chunks : list (list byte))
    (a : accumulators) : accumulators :=
  foldl (λ a chunk, absorb hasher chunk a) a chunks.

(** The three [size_t] variables hold 64-bit values. *)
Definition in_range (a : accumulators) : Prop :=
  0 ≤ hash1 a < 2 ^ 64 ∧ 0 ≤ hash2 a < 2 ^ 64 ∧ 0 ≤ total_read a < 2 ^ 64.

(** The characters 0-9 and a-f. *)
Definition is_hex_digit (c : ascii) : bool :=
  let n := nat_of_ascii c in
  ((48 <=? n)%nat && (n <=? 57)%nat) || ((97 <=? n)%nat && (n <=? 102)%nat).

(** ** The entry of [main] (lines 188-216) *)

Definition double_quote : ascii := "034"%char.
Definition single_quote : ascii := "039"%char.

(** [dir_path.front()] and [dir_path.back()]; [None] for the empty string,
    where the program does not call them. *)
Definition front (s : string) : option ascii :=
  match s with
  | EmptyString => None
  | String c _ => Some c
  end.

Fixpoint back (s : string) : option ascii :=
  match s with
  | EmptyString => None
  | String c EmptyString => Some c
  | String _ rest => back rest
  end.

(** Lines 198-204: one pair of matching quotes around the path is taken
    off. *)
Definition strip_quotes (dir_path : string) : string :=
  if (2 <=? String.length dir_path)%nat then
    match front dir_path, back dir_path with
    | Some first, Some last =>
        if (Ascii.eqb first double_quote && Ascii.eqb last double_quote)
           || (Ascii.eqb first single_quote && Ascii.eqb last single_quote)
        then substring 1 (String.length dir_path - 2) dir_path
        else dir_path
    | _, _ => dir_path
    end
  else dir_path.

(** How a run ends when no exception ends it: with status 1 and one of the
    three error messages, or with status 0 after the report. *)
Inductive run_end : Type :=
| no_directory_provided
| does_not_exist (directory : string)
| not_a_directory (directory : string)
| finished (r : report).


(** Lines 188-254. [world] gives the file that a path denotes, if any
    ([fs::exists] and [fs::is_directory] follow symbolic links); [line] is
    what [std::getline] read. *)
Definition main_program (hasher : list byte → Z) (world : string → option node)
    (line : string) : outcome run_end :=
  if empty line then Returned no_directory_provided
  else
    let directory := strip_quotes line in
    match world directory with
    | None => Returned (does_not_exist directory)
    | Some fs =>
        r ← main hasher fs;
        match r with
        | None => Returned (not_a_directory directory)
        | Some r => Returned (finished r)
        end
    end.

(** Three regular files of three sizes, one of them in a subdirectory. *)
Definition distinct_tree : node :=
  Directory true
    [("a"%string, File [x41] true);
     ("b"%string, File [x41; x41] true);
     ("d"%string, Directory true [("c"%string, File [] true)])].

(** A world in which the path dir denotes [sample_tree], and no other path
    denotes anything. *)
Definition sample_world (p : string) : option node :=
  if String.eqb p "dir" then Some sample_tree else None.

(** * Properties *)

(** ** Machine integers and rendering *)

Lemma wrap64_range (z : Z) : 0 ≤ wrap64 z < 2 ^ 64.
Proof. unfold wrap64. apply Z.mod_pos_bound. lia. Qed.

Lemma wrap64_small (z : Z) : 0 ≤ z < 2 ^ 64 → wrap64 z = z.
Proof. intros. unfold wrap64. by apply Z.mod_small. Qed.

Lemma string_length_app (s t : string) :
  String.length (s +:+ t) = (String.length s + String.length t)%nat.
Proof. induction s as [|c s IH]; simpl; [done|by rewrite IH]. Qed.

Lemma hex_field_length (n : nat) (z : Z) : String.length (hex_field n z) = n.
Proof.
  revert z. induction n as [|n IH]; intros z; simpl; [done|].
  rewrite string_length_app, IH. simpl. lia.
Qed.

Lemma empty_spec (s : string) : empty s = true ↔ s = EmptyString.
Proof. by destruct s. Qed.

Lemma empty_length (s : string) : (0 < String.length s)%nat → empty s = false.
Proof. destruct s; simpl; [lia|done]. Qed.

(** ** The file system *)

Lemma node_nested_ind (P : node → Prop) :
  (∀ content readable, P (File content readable)) →
  (∀ listable children,
     Forall (λ c, P c.2) children → P (Directory listable children)) →
  (∀ target, P (Symlink target)) →
  P Special →
  P Unstatable →
  ∀ n, P n.
Proof.
  intros HF HD HL HS HU. fix IH 1.
  intros [c r|l cs|t| |]; [apply HF| |apply HL|apply HS|apply HU].
  apply HD. induction cs as [|[name c] cs IHcs]; constructor; [apply IH|apply IHcs].
Qed.

Lemma reaches_nil (n m : node) : reaches n [] m ↔ m = n.
Proof. split; [by inversion 1|intros ->; constructor]. Qed.

Lemma reaches_file_like (n m : node) (q : list string) :
  (∀ listable children, n ≠ Directory listable children) →
  reaches n q m → q = [].
Proof. intros Hn Hr. destruct Hr; [done|]. by destruct (Hn listable children). Qed.

Lemma find_child_Some (name : string) (children : list (string * node))
    (child : node) :
  find_child name children = Some child → (name, child) ∈ children.
Proof.
  induction children as [|[name' c] cs IH]; simpl; [done|].
  destruct (String.eqb_spec name name') as [->|Hne].
  - intros [= ->]. apply list_elem_of_here.
  - intros H. apply list_elem_of_further. by apply IH.
Qed.

Lemma find_child_None (name : string) (children : list (string * node))
    (child : node) :
  find_child name children = None → (name, child) ∉ children.
Proof.
  induction children as [|[name' c] cs IH]; simpl; [by inversion 2|].
  destruct (String.eqb_spec name name') as [->|Hne]; [done|].
  intros Hnone Hin. apply elem_of_cons in Hin as [[= -> ->]|Hin]; [done|].
  by apply IH.
Qed.

Lemma unique_among_find (children : list (string * node)) (name : string)
    (child : node) :
  unique_among unique_names children = true →
  (name, child) ∈ children →
  find_child name children = Some child ∧ unique_names child = true.
Proof.
  induction children as [|[name' c] cs IH]; [by inversion 2|].
  cbn [unique_among find_child]. intros Hu Hin.
  apply andb_prop in Hu as [Hu Hcs]. apply andb_prop in Hu as [Hfresh Hc].
  apply elem_of_cons in Hin as [[= -> ->]|Hin].
  - by rewrite String.eqb_refl.
  - destruct (String.eqb_spec name name') as [->|Hne]; [|by apply IH].
    destruct (find_child name' cs) eqn:Hfind; [done|].
    by apply find_child_None with (child := child) in Hfind.
Qed.

Lemma lookup_path_reaches (n m : node) (q : list string) :
  lookup_path n q = Some m → reaches n q m.
Proof.
  revert n. induction q as [|name q IH]; intros n; simpl.
  - intros [= ->]. constructor.
  - destruct n as [| l cs | | |]; try done.
    destruct (find_child name cs) as [child|] eqn:Hfind; [|done].
    intros Hq. econstructor; [by apply find_child_Some|by apply IH].
Qed.

Lemma reaches_lookup_path (n m : node) (q : list string) :
  unique_names n = true → reaches n q m → lookup_path n q = Some m.
Proof.
  intros Hu Hr. induction Hr as [|l cs name child q m Hin Hr IH]; [done|].
  cbn [lookup_path]. cbn [unique_names] in Hu.
  destruct (unique_among_find cs name child Hu Hin) as [-> Hc]. by apply IH.
Qed.

(** The entries that the iterator yields are the nodes reached by a
    non-empty path. *)
Lemma list_directory_elem_of (here : list string) (children : list (string * node))
    (es : list directory_entry) (e : directory_entry) :
  Forall (λ c, ∀ here es e,
            recursive_directory_iterator here c.2 = Returned es →
            e ∈ es ↔ ∃ q, q ≠ [] ∧ entry_path e = here ++ q
                           ∧ reaches c.2 q (entry_node e)) children →
  list_directory recursive_directory_iterator here children = Returned es →
  e ∈ es ↔ ∃ name child q, (name, child) ∈ children
                            ∧ entry_path e = here ++ name :: q
                            ∧ reaches child q (entry_node e).
Proof.
  intros Hall. revert es.
  induction Hall as [|[name child] cs Hc _ IH]; intros es; cbn [list_directory].
  - intros [= <-]. split; [by inversion 1|].
    intros (? & ? & ? & Hin & _). by inversion Hin.
  - cbn [snd] in Hc.
    destruct (match child with
              | Directory _ _ =>
                  recursive_directory_iterator (here ++ [name]) child
              | _ => Returned []
              end) as [below|] eqn:Hbelow; [|done].
    destruct (list_directory recursive_directory_iterator here cs)
      as [after|] eqn:Hafter; [|done].
    cbn. intros [= <-]. specialize (IH after eq_refl).
    rewrite elem_of_cons, elem_of_app, IH. clear IH.
    assert (e ∈ below ↔ ∃ q, q ≠ [] ∧ entry_path e = here ++ name :: q
                              ∧ reaches child q (entry_node e)) as ->.
    { destruct child as [c r|l cs'|t| |]; try (injection Hbelow as <-).
      2:{ rewrite (Hc _ _ e Hbelow). by setoid_rewrite <-app_assoc. }
      all: split; [by inversion 1|]; intros (q & Hq & _ & Hr);
        apply reaches_file_like in Hr; done. }
    split.
    + intros [->|[(q & Hq & Hp & Hr)|(name' & child' & q & Hin & Hp & Hr)]].
      * exists name, child, []. split_and!; [apply list_elem_of_here|done|constructor].
      * exists name, child, q. split_and!; [apply list_elem_of_here|done..].
      * exists name', child', q. split_and!; [by apply list_elem_of_further|done..].
    + intros (name' & child' & q & Hin & Hp & Hr).
      apply elem_of_cons in Hin as [[= -> ->]|Hin].
      * destruct q as [|x q].
        -- left. apply reaches_nil in Hr. destruct e; simpl in *. by subst.
        -- right; left. by exists (x :: q).
      * right; right. by exists name', child', q.
Qed.

Lemma recursive_directory_iterator_elem_of (n : node) :
  ∀ (here : list string) (es : list directory_entry) (e : directory_entry),
    recursive_directory_iterator here n = Returned es →
    e ∈ es ↔ ∃ q, q ≠ [] ∧ entry_path e = here ++ q
                   ∧ reaches n q (entry_node e).
Proof.
  induction n as [c r|l cs IH|t| |] using node_nested_ind; try done.
  intros here es e. destruct l; [|done]. cbn [recursive_directory_iterator].
  intros Hes. rewrite (list_directory_elem_of here cs es e IH Hes).
  split.
  - intros (name & child & q & Hin & Hp & Hr).
    exists (name :: q). split_and!; [done..|]. by econstructor.
  - intros (q & Hq & Hp & Hr). inversion Hr; subst; [done|].
    by eexists _, _, _.
Qed.

(** The iterator throws exactly when a directory on its way cannot be
    opened. *)
Lemma list_directory_thrown (here : list string) (children : list (string * node)) :
  Forall (λ c, ∀ listable cs here,
            c.2 = Directory listable cs →
            recursive_directory_iterator here c.2 = Thrown
            ↔ blocked c.2 = true) children →
  list_directory recursive_directory_iterator here children = Thrown
  ↔ existsb (λ c, blocked c.2) children = true.
Proof.
  induction 1 as [|[name child] cs Hc _ IH]; cbn [list_directory existsb]; [done|].
  cbn [snd] in *. rewrite orb_true_iff, <-IH. clear IH.
  destruct child as [c r|l cs'|t| |].
  2:{ rewrite <-(Hc l cs' (here ++ [name]) eq_refl).
      destruct (recursive_directory_iterator _ _); [|by split; [left|]].
      cbn. destruct (list_directory _ _ _); cbn; [|by split; [right|]].
      split; [done|by intros [|]]. }
  all: cbn; destruct (list_directory _ _ _); cbn;
    (split; [try done; by right|by intros [|]]).
Qed.

Lemma recursive_directory_iterator_thrown (listable : bool)
    (children : list (string * node)) (here : list string) :
  recursive_directory_iterator here (Directory listable children) = Thrown
  ↔ blocked (Directory listable children) = true.
Proof.
  cut (∀ n listable children here,
         n = Directory listable children →
         recursive_directory_iterator here n = Thrown ↔ blocked n = true).
  { intros H. by apply (H _ listable children). }
  clear. induction n as [c r|l cs IH|t| |] using node_nested_ind; try done.
  intros ? ? here [= <- <-]. cbn [recursive_directory_iterator blocked].
  destruct l; [|done]. cbn [negb orb]. by apply list_directory_thrown.
Qed.

Lemma list_directory_app
    (enter : list string → node → outcome (list directory_entry))
    (here : list string) (cs1 cs2 : list (string * node)) :
  list_directory enter here (cs1 ++ cs2)
  = es1 ← list_directory enter here cs1;
    es2 ← list_directory enter here cs2;
    Returned (es1 ++ es2).
Proof.
  induction cs1 as [|[name child] cs1 IH]; cbn [app list_directory].
  - by destruct (list_directory enter here cs2).
  - rewrite IH.
    destruct (match child with
              | Directory _ _ => enter (here ++ [name]) child
              | _ => Returned []
              end) as [below|]; [|done].
    destruct (list_directory enter here cs1) as [es1|]; [|done].
    destruct (list_directory enter here cs2) as [es2|]; [|done].
    cbn. by rewrite <-app_assoc.
Qed.

(** ** Lists *)

Lemma filter_all {A : Type} (P : A → Prop) `{∀ x, Decision (P x)} (l : list A) :
  (∀ x, x ∈ l → P x) → filter P l = l.
Proof.
  induction l as [|x l IH]; intros Hall; [done|].
  rewrite filter_cons_True by (apply Hall, list_elem_of_here).
  rewrite IH; [done|]. intros y Hy. by apply Hall, list_elem_of_further.
Qed.

Lemma nonempty_elem_of {A : Type} (l : list A) : l ≠ [] → ∃ x, x ∈ l.
Proof. destruct l as [|x l]; [done|]. exists x. apply list_elem_of_here. Qed.

Lemma two_members {A : Type} (l : list A) (x y : A) :
  x ∈ l → y ∈ l → x ≠ y → (2 ≤ length l)%nat.
Proof.
  destruct l as [|a [|b l]]; cbn; [by inversion 1| |lia].
  rewrite !list_elem_of_singleton. congruence.
Qed.

(** ** Grouping *)

Section Grouping.

Context {K : Type} {K_eq_dec : EqDecision K} {K_countable : Countable K}.
Context {A : Type}.
Variable key : A → option K.
Variable item : A → list string.

Lemma classify_cons (x : A) (l : list A) (groups : gmap K (list (list string))) :
  classify key item (x :: l) groups
  = classify key item l match key x with
               | Some k => push_back groups k (item x)
               | None => groups
               end.
Proof. done. Qed.

Lemma push_back_lookup (groups : gmap K (list (list string))) (k k' : K)
    (p : list string) :
  push_back groups k' p !! k =
  if decide (k' = k) then Some (default [] (groups !! k) ++ [p])
  else groups !! k.
Proof.
  unfold push_back. rewrite lookup_insert.
  destruct (decide (k' = k)) as [->|]; done.
Qed.

Lemma classify_members (l : list A) (groups : gmap K (list (list string)))
    (k : K) :
  default [] (classify key item l groups !! k)
  = default [] (groups !! k) ++ members_with key item k l.
Proof.
  revert groups. induction l as [|x l IH]; intros groups.
  - unfold members_with. simpl. by rewrite app_nil_r.
  - rewrite classify_cons, IH. clear IH.
    unfold members_with. rewrite filter_cons.
    destruct (key x) as [k'|] eqn:Hk.
    + rewrite push_back_lookup.
      destruct (decide (k' = k)) as [->|Hne].
      * rewrite decide_True by done. cbn. by rewrite <-app_assoc.
      * rewrite decide_False by congruence. done.
    + rewrite decide_False by done. done.
Qed.

Lemma classify_None (l : list A) (groups : gmap K (list (list string)))
    (k : K) :
  classify key item l groups !! k = None ↔ groups !! k = None ∧ members_with key item k l = [].
Proof.
  revert groups. induction l as [|x l IH]; intros groups.
  - unfold members_with. simpl. naive_solver.
  - rewrite classify_cons, IH. clear IH.
    unfold members_with. rewrite filter_cons.
    destruct (key x) as [k'|] eqn:Hk.
    + rewrite push_back_lookup.
      destruct (decide (k' = k)) as [->|Hne].
      * rewrite decide_True by done. cbn. naive_solver.
      * rewrite decide_False by congruence. done.
    + rewrite decide_False by done. done.
Qed.

Lemma classify_lookup (l : list A) (k : K) (ps : list (list string)) :
  classify key item l ∅ !! k = Some ps ↔ ps = members_with key item k l ∧ ps ≠ [].
Proof.
  pose proof (classify_members l ∅ k) as Hm.
  pose proof (classify_None l ∅ k) as Hn.
  rewrite lookup_empty in Hm, Hn. cbn in Hm.
  destruct (classify key item l ∅ !! k) as [ps'|]; cbn in Hm.
  - split.
    + intros [= <-]. split; [done|]. intros ->.
      symmetry in Hm. assert (Some [] = None) by (apply Hn; done). done.
    + intros [-> _]. by rewrite Hm.
  - split; [done|]. intros [-> Hne]. destruct Hne. by apply Hn.
Qed.

Lemma elem_of_members_with (k : K) (l : list A) (p : list string) :
  p ∈ members_with key item k l ↔ ∃ x, x ∈ l ∧ key x = Some k ∧ item x = p.
Proof.
  unfold members_with. rewrite list_elem_of_fmap.
  setoid_rewrite list_elem_of_filter. naive_solver.
Qed.

End Grouping.

Lemma size_key_regular_of_size (e : directory_entry) (size : Z) :
  size_key e = Some size ↔ regular_of_size (entry_node e) size.
Proof.
  unfold size_key, is_regular_file, file_size, file_size_of, regular_of_size.
  destruct (entry_node e) as [c r| | [c r| | | |] | |]; cbn; naive_solver.
Qed.

(** The body of the first loop of [group_by_size] throws for an entry whose
    status cannot be read, and for no other. *)
Lemma size_step (groups : gmap Z (list (list string))) (e : directory_entry) :
  (is_regular ← is_regular_file e;
   if is_regular : bool then
     size ← file_size e;
     Returned (push_back groups size (entry_path e))
   else Returned groups)
  = if decide (status (entry_node e) = none) then Thrown
    else Returned match size_key e with
                  | Some size => push_back groups size (entry_path e)
                  | None => groups
                  end.
Proof.
  unfold size_key, is_regular_file, file_size, file_size_of.
  by destruct (entry_node e) as [c r| | [c r| | | |] | |].
Qed.

(** The first loop of [group_by_size]. *)
Lemma size_loop_classify (entries : list directory_entry)
    (groups : gmap Z (list (list string))) :
  for_each (λ size_groups entry,
              is_regular ← is_regular_file entry;
              if is_regular : bool then
                size ← file_size entry;
                Returned (push_back size_groups size (entry_path entry))
              else Returned size_groups)
           entries groups
  = if decide (Exists (λ e, status (entry_node e) = none) entries) then Thrown
    else Returned (classify size_key entry_path entries groups).
Proof.
  revert groups. induction entries as [|e es IH]; intros groups.
  - cbn [for_each]. by rewrite decide_False by (by intros ?%Exists_nil).
  - rewrite classify_cons. cbn [for_each]. rewrite size_step.
    destruct (decide (status (entry_node e) = none)) as [He|He].
    + by rewrite decide_True by (by left).
    + cbn [mbind outcome_bind]. rewrite IH.
      destruct (decide (Exists _ es)) as [Hes|Hes].
      * by rewrite decide_True by (by right).
      * rewrite decide_False; [done|]. by intros [?|?]%Exists_cons.
Qed.

Lemma group_by_size_returned (fs : node)
    (size_groups : gmap Z (list (list string))) :
  group_by_size fs = Returned size_groups →
  ∃ entries,
    recursive_directory_iterator [] fs = Returned entries
    ∧ Forall (λ e, status (entry_node e) ≠ none) entries
    ∧ size_groups
      = filter (λ it, ¬ (length it.2 < 2)%nat)
          (classify size_key entry_path entries ∅).
Proof.
  unfold group_by_size.
  destruct (recursive_directory_iterator [] fs) as [entries|]; [|done].
  cbn [mbind outcome_bind]. rewrite size_loop_classify.
  destruct (decide (Exists _ entries)) as [Hex|Hex]; [done|].
  cbn [mbind outcome_bind]. intros [= <-]. exists entries.
  split_and!; [done| |done]. apply Forall_forall. intros e He Hs.
  apply Hex, Exists_exists. by exists e.
Qed.

(** The size groups as sets of entries. *)
Lemma group_by_size_lookup (fs : node) (entries : list directory_entry)
    (size_groups : gmap Z (list (list string))) (size : Z)
    (paths : list (list string)) :
  recursive_directory_iterator [] fs = Returned entries →
  group_by_size fs = Returned size_groups →
  size_groups !! size = Some paths
  ↔ paths = members_with size_key entry_path size entries
    ∧ (2 ≤ length paths)%nat.
Proof.
  intros Hscan (entries' & Hscan' & _ & ->)%group_by_size_returned.
  rewrite Hscan in Hscan'. injection Hscan' as <-.
  rewrite map_lookup_filter_Some, classify_lookup. cbn.
  split; [intros [[-> _] ?]; split; [done|lia]|].
  intros [-> Hlen]. split_and!; [done| |lia].
  intros Hnil. rewrite Hnil in Hlen. cbn in Hlen. lia.
Qed.

(** What is in a size group: the non-empty paths that lead to a regular
    file of that size. *)
Lemma size_group_elem_of (fs : node) (size_groups : gmap Z (list (list string)))
    (size : Z) (paths : list (list string)) (p : list string) :
  group_by_size fs = Returned size_groups →
  size_groups !! size = Some paths →
  p ∈ paths ↔ p ≠ [] ∧ ∃ n, reaches fs p n ∧ regular_of_size n size.
Proof.
  intros Hgroups Hpaths.
  destruct (recursive_directory_iterator [] fs) as [entries|] eqn:Hscan.
  2:{ unfold group_by_size in Hgroups. by rewrite Hscan in Hgroups. }
  pose proof (proj1 (group_by_size_lookup _ _ _ _ _ Hscan Hgroups) Hpaths)
    as [Heq _].
  rewrite Heq, elem_of_members_with. clear Heq.
  setoid_rewrite (recursive_directory_iterator_elem_of fs [] entries _ Hscan).
  setoid_rewrite size_key_regular_of_size. split.
  - intros (e & (q & Hq & Hpath & Hr) & Hsize & <-). cbn in Hpath. subst q.
    split; [done|]. by exists (entry_node e).
  - intros (Hp & n & Hr & Hsize). exists (Entry p n). cbn.
    split_and!; [|done..]. by exists p.
Qed.

(** Two different paths to regular files of one size put that size among
    the size groups. *)
Lemma size_group_exists (fs : node) (size_groups : gmap Z (list (list string)))
    (size : Z) (p1 p2 : list string) (n1 n2 : node) :
  group_by_size fs = Returned size_groups →
  p1 ≠ [] → p2 ≠ [] → p1 ≠ p2 →
  reaches fs p1 n1 → regular_of_size n1 size →
  reaches fs p2 n2 → regular_of_size n2 size →
  ∃ paths, size_groups !! size = Some paths ∧ p1 ∈ paths ∧ p2 ∈ paths.
Proof.
  intros Hgroups Hp1 Hp2 Hne Hr1 Hs1 Hr2 Hs2.
  destruct (recursive_directory_iterator [] fs) as [entries|] eqn:Hscan.
  2:{ unfold group_by_size in Hgroups. by rewrite Hscan in Hgroups. }
  set (paths := members_with size_key entry_path size entries).
  assert (∀ p n, p ≠ [] → reaches fs p n → regular_of_size n size → p ∈ paths)
    as Hin.
  { intros p n Hp Hr Hs. apply elem_of_members_with. exists (Entry p n). cbn.
    split_and!; [|by apply size_key_regular_of_size|done].
    apply (recursive_directory_iterator_elem_of fs [] entries _ Hscan).
    by exists p. }
  assert (size_groups !! size = Some paths) as Hpaths.
  { apply (group_by_size_lookup _ _ _ _ _ Hscan Hgroups). split; [done|].
    apply (two_members _ p1 p2); eauto. }
  exists paths. eauto.
Qed.

(** The size of a member of a size group, names being unique. *)
Lemma size_group_member_size (fs : node)
    (size_groups : gmap Z (list (list string))) (size : Z)
    (paths : list (list string)) (p : list string) :
  unique_names fs = true →
  group_by_size fs = Returned size_groups →
  size_groups !! size = Some paths →
  p ∈ paths →
  ∃ n, lookup_path fs p = Some n ∧ regular_of_size n size.
Proof.
  intros Hu Hgroups Hpaths Hin.
  apply (size_group_elem_of fs size_groups size paths p Hgroups Hpaths) in Hin
    as (_ & n & Hr & Hs).
  exists n. split; [by apply reaches_lookup_path|done].
Qed.

Lemma regular_of_size_unique (n : node) (size size' : Z) :
  regular_of_size n size → regular_of_size n size' → size = size'.
Proof.
  intros (c & r & Hd & ->) (c' & r' & Hd' & ->). congruence.
Qed.

(** The scan throws when a directory cannot be opened or the status of an
    entry cannot be read, and only then. *)
Lemma group_by_size_thrown (listable : bool) (children : list (string * node)) :
  group_by_size (Directory listable children) = Thrown
  ↔ blocked (Directory listable children) = true
    ∨ status_error_below (Directory listable children).
Proof.
  set (fs := Directory listable children).
  pose proof (recursive_directory_iterator_thrown listable children [])
    as Hblocked. fold fs in Hblocked.
  unfold group_by_size.
  destruct (recursive_directory_iterator [] fs) as [entries|] eqn:Hscan.
  2:{ split; [left; by apply Hblocked|done]. }
  cbn [mbind outcome_bind]. rewrite size_loop_classify.
  assert (Exists (λ e, status (entry_node e) = none) entries
          ↔ status_error_below fs) as Hex.
  { rewrite Exists_exists. unfold status_error_below. split.
    - intros (e & He & Hs).
      apply (recursive_directory_iterator_elem_of fs [] entries e Hscan) in He
        as (q & Hq & _ & Hr).
      by exists q, (entry_node e).
    - intros (q & n & Hq & Hr & Hs). exists (Entry q n). split; [|done].
      apply (recursive_directory_iterator_elem_of fs [] entries _ Hscan).
      by exists q. }
  destruct (decide (Exists _ entries)) as [He|He].
  - split; [right; by apply Hex|done].
  - cbn [mbind outcome_bind]. split; [done|].
    intros [Hb|Hs]; [|by destruct He; apply Hex].
    apply Hblocked in Hb. congruence.
Qed.

Lemma without_dangling_link_directory (n n' : node) :
  without_dangling_link n n' →
  (∃ listable children, n = Directory listable children)
  ∧ (∃ listable children, n' = Directory listable children).
Proof. destruct 1; split; eauto. Qed.

Lemma without_dangling_link_entries (n n' : node) :
  without_dangling_link n n' →
  ∀ here,
    match recursive_directory_iterator here n,
          recursive_directory_iterator here n' with
    | Returned es, Returned es' => alike es es'
    | Thrown, Thrown => True
    | _, _ => False
    end.
Proof.
  induction 1 as [l before name after|l before name child child' after Hchild IH];
    intros here; (destruct l; [|done]); cbn [recursive_directory_iterator];
    rewrite !list_directory_app; cbn [list_directory].
  - destruct (list_directory _ here before) as [es1|]; [|done].
    cbn [mbind outcome_bind].
    destruct (list_directory _ here after) as [es2|]; [|done].
    cbn [mbind outcome_bind app]. split.
    + rewrite !Exists_app, Exists_cons. cbn [entry_node status]. naive_solver.
    + intros groups. unfold classify. by rewrite !foldl_app.
  - destruct (without_dangling_link_directory _ _ Hchild)
      as [(l & cs & ->) (l' & cs' & ->)].
    specialize (IH (here ++ [name])).
    destruct (list_directory _ here before) as [es1|].
    2:{ cbn [mbind outcome_bind]. done. }
    cbn [mbind outcome_bind].
    destruct (recursive_directory_iterator (here ++ [name]) (Directory l cs))
      as [below|],
      (recursive_directory_iterator (here ++ [name]) (Directory l' cs'))
      as [below'|]; try done.
    cbn [mbind outcome_bind].
    destruct (list_directory _ here after) as [es2|]; [|done].
    cbn [mbind outcome_bind]. destruct IH as [Hex Hgroups]. split.
    + rewrite !Exists_app, !Exists_cons, !Exists_app, Hex.
      cbn [entry_node status symlink_status]. done.
    + intros groups. unfold classify in *.
      rewrite !foldl_app. cbn [foldl]. rewrite !foldl_app.
      change (size_key (Entry (here ++ [name]) (Directory l cs))) with (@None Z).
      change (size_key (Entry (here ++ [name]) (Directory l' cs')))
        with (@None Z).
      cbv iota. by rewrite Hgroups.
Qed.

(** A dangling symbolic link, wherever it is, makes no difference to the
    scan. *)
Lemma group_by_size_without_dangling_link (n n' : node) :
  without_dangling_link n n' → group_by_size n = group_by_size n'.
Proof.
  intros Hn. pose proof (without_dangling_link_entries _ _ Hn []) as Hes.
  unfold group_by_size.
  destruct (recursive_directory_iterator [] n) as [es|],
    (recursive_directory_iterator [] n') as [es'|]; try done.
  cbn [mbind outcome_bind]. rewrite !size_loop_classify.
  destruct Hes as [Hex Hgroups]. rewrite Hgroups.
  destruct (decide (Exists _ es)) as [He|He],
    (decide (Exists _ es')) as [He'|He']; try done.
  - by destruct He'; apply Hex.
  - by destruct He; apply Hex.
Qed.

Lemma hash_groups_classify (hash_of : list string → string)
    (paths : list (list string)) :
  hash_groups hash_of paths = classify (hash_key hash_of) id paths ∅.
Proof.
  unfold hash_groups, classify. generalize (∅ : gmap string (list (list string))).
  induction paths as [|p ps IH]; intros groups; [done|].
  cbn [foldl]. rewrite IH. unfold hash_key. by destruct (empty (hash_of p)).
Qed.

Lemma hash_groups_lookup (hash_of : list string → string)
    (paths ps : list (list string)) (h : string) :
  hash_groups hash_of paths !! h = Some ps
  ↔ ps = filter (λ p, hash_of p = h) paths ∧ ps ≠ [] ∧ empty h = false.
Proof.
  rewrite hash_groups_classify, classify_lookup. unfold members_with.
  rewrite list_fmap_id.
  destruct (empty h) eqn:Hh.
  - assert (filter (λ p, hash_key hash_of p = Some h) paths = []) as ->.
    { induction paths as [|p l IH]; [done|].
      rewrite filter_cons_False; [done|]. unfold hash_key.
      destruct (empty (hash_of p)) eqn:Hp; [done|]. intros [= Heq]. congruence. }
    naive_solver.
  - assert (filter (λ p, hash_key hash_of p = Some h) paths
            = filter (λ p, hash_of p = h) paths) as ->.
    { apply list_filter_iff. intros p. unfold hash_key.
      destruct (empty (hash_of p)) eqn:Hp; [|naive_solver].
      split; [done|]. intros Heq. congruence. }
    naive_solver.
Qed.

(** Paths with one and the same hash make one group. *)
Lemma hash_groups_uniform (hash_of : list string → string)
    (paths : list (list string)) (h : string) :
  paths ≠ [] → empty h = false → (∀ p, p ∈ paths → hash_of p = h) →
  hash_groups hash_of paths = {[h := paths]}.
Proof.
  intros Hne Hh Hall. apply map_eq. intros k.
  destruct (decide (k = h)) as [->|Hk].
  - rewrite lookup_singleton_eq. apply hash_groups_lookup.
    by rewrite filter_all.
  - rewrite lookup_singleton_ne by done.
    destruct (hash_groups hash_of paths !! k) as [ps|] eqn:Hps; [|done].
    apply hash_groups_lookup in Hps as (-> & Hps & _).
    apply nonempty_elem_of in Hps as [p [Hp Hin]%list_elem_of_filter].
    rewrite (Hall p Hin) in Hp. congruence.
Qed.

(** A path with the sentinel hash may as well not be there. *)
Lemma hash_groups_without (hash_of : list string → string)
    (paths : list (list string)) (p : list string) :
  empty (hash_of p) = true →
  hash_groups hash_of paths = hash_groups hash_of (filter (λ q, q ≠ p) paths).
Proof.
  intros Hp. unfold hash_groups.
  generalize (∅ : gmap string (list (list string))).
  induction paths as [|q l IH]; intros groups; [done|].
  rewrite filter_cons. destruct (decide (q ≠ p)) as [Hq|Hq]; cbn [foldl].
  - apply IH.
  - apply dec_stable in Hq as ->. rewrite Hp. cbn. apply IH.
Qed.

(** ** Collecting *)

Lemma foldl_emitted {A B : Type} (f : list B → A → list B) (P : A → B → Prop) :
  (∀ acc x b, b ∈ f acc x ↔ b ∈ acc ∨ P x b) →
  ∀ l acc b, b ∈ foldl f acc l ↔ b ∈ acc ∨ ∃ x, x ∈ l ∧ P x b.
Proof.
  intros Hf. induction l as [|x l IH]; intros acc b; cbn [foldl].
  - split; [by left|]. intros [|(? & Hin & _)]; [done|by inversion Hin].
  - rewrite IH, Hf. setoid_rewrite elem_of_cons. naive_solver.
Qed.

(** ** The report *)

Lemma sum_of_app (f : group_line → Z) (ls ls' : list group_line) :
  sum_of f (ls ++ ls') = sum_of f ls + sum_of f ls'.
Proof. unfold sum_of. induction ls as [|l ls IH]; cbn; lia. Qed.

Lemma wrap64_add_l (x y : Z) : wrap64 (wrap64 x + y) = wrap64 (x + y).
Proof. unfold wrap64. by rewrite Zplus_mod_idemp_l. Qed.

Lemma wrap64_mul_r (x y : Z) : wrap64 (x * wrap64 y) = wrap64 (x * y).
Proof. unfold wrap64. by rewrite Zmult_mod_idemp_r. Qed.

Lemma fs_file_size_nonneg (fs : node) (p : list string) (size : Z) :
  fs_file_size fs p = Returned size → 0 ≤ size.
Proof.
  unfold fs_file_size, file_size_of.
  destruct (lookup_path fs p) as [n|]; [|done].
  destruct (regular_data n) as [[c r]|]; [|done]. intros [= <-]. lia.
Qed.

(** The loop of the report, for groups all of whose members have one
    size. *)
Lemma report_groups_lines (fs : node) (duplicates : list (list (list string)))
    (r0 : report) :
  0 ≤ total_wasted r0 < 2 ^ 64 →
  (∀ g, g ∈ duplicates →
        g ≠ [] ∧ ∃ size, ∀ p, p ∈ g → fs_file_size fs p = Returned size) →
  ∃ ls,
    for_each (report_group fs) duplicates r0
    = Returned {| lines := lines r0 ++ ls;
                  total_wasted := wrap64 (total_wasted r0 + sum_of wasted ls) |}
    ∧ members <$> ls = duplicates
    ∧ Forall (line_of_group fs) ls.
Proof.
  revert r0. induction duplicates as [|g gs IH]; intros r0 Hr0 Hall.
  - exists []. cbn. rewrite app_nil_r, Z.add_0_r, wrap64_small by done.
    by destruct r0.
  - destruct (Hall g) as (Hg & size & Hsize); [apply list_elem_of_here|].
    destruct g as [|first g]; [done|].
    set (l := Line (first :: g) size
                (wrap64 (size * wrap64 (Z.of_nat (length (first :: g)) - 1)))).
    assert (report_group fs r0 (first :: g)
            = Returned {| lines := lines r0 ++ [l];
                          total_wasted := wrap64 (total_wasted r0 + wasted l) |})
      as Hstep.
    { unfold report_group. by rewrite (Hsize first) by apply list_elem_of_here. }
    destruct (IH {| lines := lines r0 ++ [l];
                    total_wasted := wrap64 (total_wasted r0 + wasted l) |})
      as (ls & Hrun & Hmembers & Hlines).
    { cbn. apply wrap64_range. }
    { intros g' Hg'. by apply Hall, list_elem_of_further. }
    exists (l :: ls). split_and!.
    + cbn [for_each]. rewrite Hstep. cbn [mbind outcome_bind]. rewrite Hrun.
      cbn [lines total_wasted]. rewrite <-app_assoc. cbn [app sum_of foldr].
      by rewrite wrap64_add_l, Z.add_assoc.
    + cbn. by rewrite Hmembers.
    + constructor; [|done]. split; [done|].
      unfold l, exact_wasted. cbn [wasted each_size members].
      apply wrap64_mul_r.
Qed.


Lemma exact_wasted_nonneg (fs : node) (l : group_line) :
  line_of_group fs l → members l ≠ [] → 0 ≤ exact_wasted l.
Proof.
  intros [Hsize _] Hne. unfold exact_wasted.
  destruct (members l) as [|p ps] eqn:Hm; [done|].
  assert (0 ≤ each_size l).
  { apply (fs_file_size_nonneg fs p), Hsize, list_elem_of_here. }
  cbn [length]. nia.
Qed.

(** As long as the sum fits in 64 bits, nothing wraps. *)
Lemma wasted_exact_when_fits (fs : node) (ls : list group_line) :
  Forall (line_of_group fs) ls →
  Forall (λ l, members l ≠ []) ls →
  sum_of exact_wasted ls < 2 ^ 64 →
  0 ≤ sum_of exact_wasted ls
  ∧ Forall (λ l, wasted l = exact_wasted l) ls
  ∧ sum_of wasted ls = sum_of exact_wasted ls.
Proof.
  induction 1 as [|l ls Hl Hls IH]; intros Hne Hfits; [done|].
  apply Forall_cons in Hne as [Hne Hnes].
  pose proof (exact_wasted_nonneg fs l Hl Hne) as Hpos.
  cbn [sum_of foldr] in *. fold (sum_of exact_wasted ls) in *.
  fold (sum_of wasted ls).
  assert (0 ≤ sum_of exact_wasted ls) as Hrest.
  { clear -Hnes Hls. induction Hls as [|l' ls' Hl' _ IH']; [done|].
    apply Forall_cons in Hnes as [Hne' Hnes'].
    pose proof (exact_wasted_nonneg fs l' Hl' Hne').
    cbn [sum_of foldr]. fold (sum_of exact_wasted ls'). specialize (IH' Hnes').
    lia. }
  destruct IH as (_ & Hall & Hsum); [done|lia|].
  assert (wasted l = exact_wasted l) as Hw.
  { destruct Hl as [_ ->]. apply wrap64_small. lia. }
  split_and!; [lia|by constructor|lia].
Qed.

Section FingerprintFacts.

Variable hasher : list byte → Z.

(** *** The loop *)

Lemma read_loop_step (max_bytes : Z) (file : ifstream) (a : accumulators) :
  read_loop hasher max_bytes file a =
  if good file && (0 <? to_read max_bytes a) then
    match turn hasher max_bytes file a with
    | Break a' => a'
    | Again file' a' => read_loop hasher max_bytes file' a'
    end
  else a.
Proof.
  destruct (good file && (0 <? to_read max_bytes a)) eqn:Hgo;
    destruct (turn hasher max_bytes file a) as [a'|file' a'] eqn:Hturn;
    rewrite read_loop_unfold_eq; unfold read_loop_unfold;
    generalize (inspect (good file && (0 <? to_read max_bytes a)));
    intros [[] Hgo']; try (exfalso; clear -Hgo Hgo'; congruence);
    simp read_loop; try done;
    generalize (inspect (turn hasher max_bytes file a));
    intros [[b|file'' b] Hturn']; simp read_loop;
    pose proof (eq_trans (eq_sym Hturn) Hturn') as Heq;
    by inversion Heq.
Qed.

Lemma read_loop_failed (max_bytes : Z) (file : ifstream) (a : accumulators) :
  good file = false → read_loop hasher max_bytes file a = a.
Proof. intros Hbad. rewrite read_loop_step, Hbad. done. Qed.

(** The body of a turn, with the stream operations written out. *)
Lemma turn_spelled (max_bytes : Z) (file : ifstream) (a : accumulators) :
  turn hasher max_bytes file a =
  let n := to_read max_bytes a in
  let chunk := take (Z.to_nat n) (pending file) in
  let a' := if 0 <? Z.of_nat (length chunk) then absorb hasher chunk a else a in
  if (0 <? max_bytes) && (max_bytes <=? total_read a') then Break a'
  else Again {| pending := drop (Z.to_nat n) (pending file);
                good := good file && (n <=? Z.of_nat (length (pending file)));
                gcount := Z.of_nat (length chunk) |} a'.
Proof. reflexivity. Qed.

(** At the end of the file the loop changes nothing any more. *)
Lemma read_loop_at_end (max_bytes : Z) (ok : bool) (g : Z) (a : accumulators) :
  read_loop hasher max_bytes {| pending := []; good := ok; gcount := g |} a = a.
Proof.
  rewrite read_loop_step.
  destruct (_ && _) eqn:Hgo; [|done].
  apply andb_prop in Hgo as [_ Hpos%Z.ltb_lt].
  rewrite turn_spelled. cbn zeta. cbn [pending good].
  rewrite take_nil, drop_nil. cbn [length Z.of_nat Z.ltb Z.compare].
  destruct (_ && _); [done|].
  apply read_loop_failed. cbn [good].
  rewrite andb_false_iff. right. apply Z.leb_gt. lia.
Qed.

(** The request is never empty in a state that the loop can reach from the
    initial one: there, less than [max_bytes] has been read whenever a limit
    is set. *)
Lemma to_read_positive (max_bytes : Z) (a : accumulators) :
  0 ≤ max_bytes < 2 ^ 64 →
  max_bytes = 0 ∨ 0 ≤ total_read a < max_bytes →
  0 < to_read max_bytes a.
Proof.
  intros Hmax Hinv. unfold to_read.
  destruct (Z.ltb_spec 0 max_bytes); [|lia].
  rewrite wrap64_small by lia. lia.
Qed.

(** The invariant of [to_read_positive] holds again after every turn that
    does not leave the loop. *)
Lemma turn_invariant (max_bytes : Z) (file file' : ifstream)
    (a a' : accumulators) :
  0 ≤ max_bytes < 2 ^ 64 →
  max_bytes = 0 ∨ 0 ≤ total_read a < max_bytes →
  turn hasher max_bytes file a = Again file' a' →
  max_bytes = 0 ∨ 0 ≤ total_read a' < max_bytes.
Proof.
  intros Hmax Hinv. rewrite turn_spelled. cbn zeta.
  destruct (_ && _) eqn:Hbreak; [done|]. intros [= _ <-].
  destruct Hinv as [->|Hinv]; [by left|right].
  apply andb_false_iff in Hbreak as [Hz%Z.ltb_ge|Hlt%Z.leb_gt]; [lia|].
  split; [|done].
  destruct (0 <? _); [|lia]. cbn [absorb total_read]. apply wrap64_range.
Qed.

Lemma absorb_same_hashes (chunk : list byte) (a b : accumulators) :
  same_hashes a b → same_hashes (absorb hasher chunk a) (absorb hasher chunk b).
Proof. intros [H1 H2]. split; cbn [absorb hash1 hash2]; by rewrite ?H1, ?H2. Qed.

(** With a limit, the loop does to the accumulators what the loop without a
    limit does on the stream cut after the bytes that the limit still
    allows. *)
Lemma read_loop_prefix (max_bytes : Z) (c : list byte) (a b : accumulators)
    (g g' : Z) :
  0 < max_bytes < 2 ^ 64 →
  0 ≤ total_read a < max_bytes →
  same_hashes a b →
  same_hashes
    (read_loop hasher max_bytes {| pending := c; good := true; gcount := g |} a)
    (read_loop hasher 0
       {| pending := take (Z.to_nat (max_bytes - total_read a)) c;
          good := true; gcount := g' |} b).
Proof.
  intros Hmax. remember (length c) as n eqn:Hn.
  revert c a b g g' Hn.
  induction (lt_wf n) as [n _ IH]. intros c a b g g' -> Ha Hab.
  set (r := max_bytes - total_read a).
  assert (Hk : to_read max_bytes a = Z.min 8192 r).
  { unfold to_read. destruct (Z.ltb_spec 0 max_bytes); [|lia].
    rewrite wrap64_small by lia. done. }
  rewrite (read_loop_step max_bytes), (read_loop_step 0).
  cbn [good]. change (to_read 0 b) with 8192. rewrite Hk.
  replace (0 <? Z.min 8192 r) with true by (symmetry; apply Z.ltb_lt; lia).
  cbn [andb Z.ltb Z.compare].
  rewrite !turn_spelled. cbn zeta. cbn [pending good]. rewrite Hk.
  change (to_read 0 b) with 8192.
  replace (0 <? max_bytes) with true by (symmetry; apply Z.ltb_lt; lia).
  cbn [andb Z.ltb Z.compare].
  destruct (Z.le_gt_cases (Z.min 8192 r) (Z.of_nat (length c))) as [Hfull|Hshort].
  - (* the request is served in full *)
    assert (length (take (Z.to_nat (Z.min 8192 r)) c)
            = Z.to_nat (Z.min 8192 r)) as Hlen by (rewrite length_take; lia).
    rewrite Hlen.
    replace (0 <? Z.of_nat (Z.to_nat (Z.min 8192 r))) with true
      by (symmetry; apply Z.ltb_lt; lia).
    cbn [absorb total_read]. rewrite Hlen.
    rewrite (wrap64_small (total_read a + _)) by lia.
    assert (take (Z.to_nat 8192) (take (Z.to_nat r) c)
            = take (Z.to_nat (Z.min 8192 r)) c) as Hchunk.
    { rewrite take_take. f_equal. lia. }
    rewrite Hchunk, Hlen.
    replace (0 <? Z.of_nat (Z.to_nat (Z.min 8192 r))) with true
      by (symmetry; apply Z.ltb_lt; lia).
    destruct (Z.le_gt_cases r 8192) as [Hlast|Hmore].
    + (* the limit is reached: break *)
      replace (max_bytes <=? total_read a + Z.of_nat (Z.to_nat (Z.min 8192 r)))
        with true by (symmetry; apply Z.leb_le; lia).
      rewrite (drop_ge (take _ _)) by (rewrite length_take; lia).
      rewrite read_loop_at_end. by apply absorb_same_hashes.
    + replace (max_bytes <=? total_read a + Z.of_nat (Z.to_nat (Z.min 8192 r)))
        with false by (symmetry; apply Z.leb_gt; lia).
      replace (Z.min 8192 r <=? Z.of_nat (length c)) with true
        by (symmetry; apply Z.leb_le; lia).
      replace (8192 <=? Z.of_nat (length (take (Z.to_nat r) c))) with true
        by (symmetry; apply Z.leb_le; rewrite length_take; lia).
      cbn [andb].
      replace (Z.min 8192 r) with 8192 by lia.
      replace (drop (Z.to_nat 8192) (take (Z.to_nat r) c))
        with (take (Z.to_nat (r - 8192)) (drop (Z.to_nat 8192) c)).
      2:{ rewrite take_drop_commute. do 2 f_equal. lia. }
      set (a' := absorb hasher (take (Z.to_nat 8192) c) a).
      assert (total_read a' = total_read a + 8192) as Ha'.
      { unfold a'. cbn [absorb total_read]. rewrite length_take.
        rewrite wrap64_small; lia. }
      replace (r - 8192) with (max_bytes - total_read a') by (unfold r; lia).
      eapply (IH (length (drop (Z.to_nat 8192) c))); [|done| |].
      * rewrite length_drop. lia.
      * lia.
      * by apply absorb_same_hashes.
  - (* the end of the file comes first *)
    rewrite !(take_ge c) by lia.
    set (a' := if 0 <? Z.of_nat (length c) then absorb hasher c a else a).
    set (b' := if 0 <? Z.of_nat (length c) then absorb hasher c b else b).
    assert (same_hashes a' b') as Hab'.
    { unfold a', b'. destruct (0 <? _); [by apply absorb_same_hashes|done]. }
    replace (max_bytes <=? total_read a') with false.
    2:{ symmetry. apply Z.leb_gt. unfold a'.
        destruct (0 <? _); [|lia]. cbn [absorb total_read].
        rewrite wrap64_small; lia. }
    rewrite !read_loop_failed; [done| |]; cbn [good]; apply Z.leb_gt; lia.
Qed.

(** Without a limit, a file shorter than the buffer is one chunk, or none
    when it is empty. *)
Lemma read_loop_single (c : list byte) (a : accumulators) (g : Z) :
  Z.of_nat (length c) < 8192 →
  read_loop hasher 0 {| pending := c; good := true; gcount := g |} a =
  if 0 <? Z.of_nat (length c) then absorb hasher c a else a.
Proof.
  intros Hlen. rewrite read_loop_step. cbn [good].
  change (to_read 0 a) with 8192. cbn [andb Z.ltb Z.compare].
  rewrite turn_spelled. cbn zeta. cbn [pending good].
  change (to_read 0 a) with 8192. cbn [andb Z.ltb Z.compare].
  rewrite take_ge by lia.
  apply read_loop_failed. cbn [good]. apply Z.leb_gt. lia.
Qed.

(** *** [compute_hash] *)

Lemma same_hashes_rendered (a b : accumulators) :
  same_hashes a b → hex_string a = hex_string b.
Proof. unfold hex_string. by intros [-> ->]. Qed.

Lemma hash_of_stream_length (max_bytes : Z) (file : ifstream) :
  String.length (hash_of_stream hasher max_bytes file) = 32%nat.
Proof.
  unfold hash_of_stream, hex_string.
  by rewrite string_length_app, !hex_field_length.
Qed.

Lemma hash_of_stream_prefix (max_bytes : Z) (c : list byte) :
  0 < max_bytes < 2 ^ 64 →
  hash_of_stream hasher max_bytes (opened c)
  = hash_of_stream hasher 0 (opened (take (Z.to_nat max_bytes) c)).
Proof.
  intros Hmax. unfold hash_of_stream. apply same_hashes_rendered.
  replace max_bytes with (max_bytes - total_read initial) at 2
    by (cbn [total_read initial]; lia).
  apply read_loop_prefix; [done|cbn [total_read initial]; lia|done].
Qed.

Lemma compute_hash_opened (fs : node) (p : list string) (file : ifstream)
    (max_bytes : Z) :
  ifstream_open fs p = Some file →
  compute_hash hasher fs p max_bytes = hash_of_stream hasher max_bytes file.
Proof. intros Hopen. unfold compute_hash. by rewrite Hopen. Qed.

Lemma compute_hash_unopened (fs : node) (p : list string) (max_bytes : Z) :
  ifstream_open fs p = None → compute_hash hasher fs p max_bytes = EmptyString.
Proof. intros Hopen. unfold compute_hash. by rewrite Hopen. Qed.

(** The sentinel tells exactly the files that cannot be opened. *)
Lemma compute_hash_empty (fs : node) (p : list string) (max_bytes : Z) :
  empty (compute_hash hasher fs p max_bytes) = true ↔ ifstream_open fs p = None.
Proof.
  unfold compute_hash. destruct (ifstream_open fs p) as [file|]; [|done].
  rewrite empty_length; [done|]. rewrite hash_of_stream_length. lia.
Qed.

Lemma ifstream_open_opened (fs : node) (p : list string) (file : ifstream) :
  ifstream_open fs p = Some file → file = opened (pending file).
Proof.
  unfold ifstream_open. destruct (lookup_path fs p) as [n|]; [|done].
  destruct (regular_data n) as [[c []]|]; [|done..]. by intros [= <-].
Qed.

Lemma ifstream_open_Some (fs : node) (p : list string) (content : list byte) :
  ifstream_open fs p = Some (opened content)
  ↔ ∃ n, lookup_path fs p = Some n ∧ regular_data n = Some (content, true).
Proof.
  unfold ifstream_open. destruct (lookup_path fs p) as [n|].
  2:{ split; [done|]. by intros (? & ? & _). }
  destruct (regular_data n) as [[c r]|] eqn:Hdata.
  2:{ split; [done|]. intros (? & [= <-] & ?). congruence. }
  destruct r.
  2:{ split; [done|]. intros (? & [= <-] & ?). congruence. }
  split.
  - intros Hc. exists n. split; [done|].
    assert (c = content) as -> by (unfold opened in Hc; congruence). done.
  - intros (? & [= <-] & ?). congruence.
Qed.

Lemma small_file_hashes (fs : node) (p : list string) (content : list byte) :
  ifstream_open fs p = Some (opened content) →
  Z.of_nat (length content) ≤ 4096 →
  partial_hash hasher fs p = full_hash hasher fs p.
Proof.
  intros Hopen Hsmall. unfold partial_hash, full_hash, PARTIAL_READ_SIZE.
  rewrite !(compute_hash_opened _ _ _ _ Hopen).
  rewrite hash_of_stream_prefix by lia. by rewrite take_ge by lia.
Qed.

(** C10: a file of at most 4096 bytes has the same partial and full
    fingerprint, a string of 32 characters obtained from the one chunk that
    both reads deliver (from no chunk when the file is empty); a partial
    group of such files is one full group. *)
Theorem small_file_partial_hash_is_full_hash (fs : node) (p : list string)
    (content : list byte) :
  ifstream_open fs p = Some (opened content) →
  Z.of_nat (length content) ≤ 4096 →
  partial_hash hasher fs p = full_hash hasher fs p
  ∧ String.length (full_hash hasher fs p) = 32%nat
  ∧ full_hash hasher fs p
    = hex_string (if 0 <? Z.of_nat (length content)
                  then absorb hasher content initial else initial)
  ∧ (∀ paths phash candidates,
       (∀ q c, q ∈ paths → ifstream_open fs q = Some (opened c) →
               Z.of_nat (length c) ≤ 4096) →
       partial_groups hasher fs paths !! phash = Some candidates →
       full_groups hasher fs candidates = {[phash := candidates]}).
Proof.
  intros Hopen Hsmall.
  split_and!.
  - by apply (small_file_hashes fs p content).
  - unfold full_hash. rewrite (compute_hash_opened _ _ _ _ Hopen).
    apply hash_of_stream_length.
  - unfold full_hash. rewrite (compute_hash_opened _ _ _ _ Hopen).
    unfold hash_of_stream, opened. by rewrite read_loop_single by lia.
  - intros paths phash cands Hall (-> & Hne & Hph)%hash_groups_lookup.
    apply hash_groups_uniform; [done..|].
    intros q [Hq Hin]%list_elem_of_filter. rewrite <-Hq. symmetry.
    destruct (ifstream_open fs q) as [file|] eqn:Hfile.
    + pose proof (ifstream_open_opened _ _ _ Hfile) as Hfile'.
      rewrite Hfile' in Hfile.
      apply (small_file_hashes fs q (pending file) Hfile). by eapply Hall.
    + apply (compute_hash_empty fs q PARTIAL_READ_SIZE) in Hfile.
      unfold partial_hash in Hq. rewrite Hq in Hfile. congruence.
Qed.

Lemma zero_byte_hash (max_bytes : Z) :
  hash_of_stream hasher max_bytes (opened [])
  = "00000000000000000000000000000000"%string.
Proof. unfold hash_of_stream, opened. by rewrite read_loop_at_end. Qed.

(** *** The refiner *)

Lemma collect_elem_of (duplicate_groups : list (list (list string)))
    (groups : gmap string (list (list string))) (g : list (list string)) :
  g ∈ collect duplicate_groups groups
  ↔ g ∈ duplicate_groups
    ∨ ∃ fhash, groups !! fhash = Some g ∧ (2 ≤ length g)%nat.
Proof.
  unfold collect.
  rewrite (foldl_emitted _ (λ it b, b = it.2 ∧ (2 ≤ length it.2)%nat)).
  - apply or_iff_compat_l. split.
    + intros ([fhash dupes] & Hin%elem_of_map_to_list & -> & Hlen). by exists fhash.
    + intros (fhash & Hin%elem_of_map_to_list & Hlen). by exists (fhash, g).
  - intros acc [fhash dupes] b. cbn [snd].
    destruct (Nat.leb_spec 2 (length dupes)).
    + rewrite elem_of_app, list_elem_of_singleton. naive_solver.
    + split; [by left|]. intros [|[_ ?]]; [done|lia].
Qed.

Lemma step_b_elem_of (fs : node) (duplicate_groups : list (list (list string)))
    (groups : gmap string (list (list string))) (g : list (list string)) :
  g ∈ step_b hasher fs duplicate_groups groups
  ↔ g ∈ duplicate_groups ∨ confirmed_in hasher fs groups g.
Proof.
  unfold step_b.
  rewrite (foldl_emitted _
    (λ it b, (2 ≤ length it.2)%nat
             ∧ ∃ fhash, full_groups hasher fs it.2 !! fhash = Some b
                        ∧ (2 ≤ length b)%nat)).
  - apply or_iff_compat_l. unfold confirmed_in. split.
    + intros ([phash cands] & Hin%elem_of_map_to_list & Hlen & fhash & Hg).
      by exists phash, cands, fhash.
    + intros (phash & cands & fhash & Hin%elem_of_map_to_list & Hlen & Hg).
      exists (phash, cands). split_and!; [done..|]. by exists fhash.
  - intros acc [phash cands] b. cbn [snd].
    destruct (Nat.ltb_spec (length cands) 2).
    + split; [by left|]. intros [|[? _]]; [done|lia].
    + rewrite collect_elem_of. naive_solver.
Qed.

Lemma find_duplicates_elem_of (fs : node)
    (size_groups : gmap Z (list (list string)))
    (duplicate_groups : list (list (list string))) (g : list (list string)) :
  group_by_size fs = Returned size_groups →
  find_duplicates hasher fs = Returned duplicate_groups →
  g ∈ duplicate_groups ↔ confirmed hasher fs size_groups g.
Proof.
  unfold find_duplicates. intros ->. cbn. intros [= <-].
  rewrite (foldl_emitted _
    (λ it b, confirmed_in hasher fs (partial_groups hasher fs it.2) b)).
  - unfold confirmed. split.
    + intros [Hnil|([size paths] & Hin%elem_of_map_to_list & Hg)];
        [by inversion Hnil|]. by exists size, paths.
    + intros (size & paths & Hin%elem_of_map_to_list & Hg).
      right. by exists (size, paths).
  - intros acc [size paths] b. cbn [snd]. apply step_b_elem_of.
Qed.

Lemma find_duplicates_returns (fs : node)
    (duplicate_groups : list (list (list string))) :
  find_duplicates hasher fs = Returned duplicate_groups →
  ∃ size_groups entries,
    group_by_size fs = Returned size_groups
    ∧ recursive_directory_iterator [] fs = Returned entries.
Proof.
  unfold find_duplicates.
  destruct (group_by_size fs) as [size_groups|] eqn:Hgroups; [|done].
  intros _. exists size_groups.
  apply group_by_size_returned in Hgroups as (entries & Hscan & _).
  by exists entries.
Qed.

(** The members of a confirmed group are paths of one size group, and
    both of their fingerprints could be computed. *)
Lemma confirmed_members (fs : node) (size_groups : gmap Z (list (list string)))
    (g : list (list string)) :
  confirmed hasher fs size_groups g →
  (2 ≤ length g)%nat
  ∧ ∃ size paths,
      size_groups !! size = Some paths
      ∧ ∀ p, p ∈ g →
             p ∈ paths ∧ empty (partial_hash hasher fs p) = false
             ∧ empty (full_hash hasher fs p) = false.
Proof.
  intros (size & paths & Hsize & phash & cands & fhash & Hp & _ & Hf & Hlen).
  split; [done|]. exists size, paths. split; [done|]. intros p Hin.
  apply hash_groups_lookup in Hp as (-> & _ & Hph).
  apply hash_groups_lookup in Hf as (-> & _ & Hfh).
  apply list_elem_of_filter in Hin as [<- Hin].
  apply list_elem_of_filter in Hin as [<- Hin]. done.
Qed.

(** *** The log *)

Lemma hash_groups_logged_spec (call : list string → hash_call)
    (hash_of : list string → string) (paths : list (list string))
    (log : list hash_call) :
  hash_groups_logged call hash_of paths log
  = (hash_groups hash_of paths, log ++ (call <$> paths)).
Proof.
  unfold hash_groups_logged, hash_groups.
  generalize (∅ : gmap string (list (list string))). revert log.
  induction paths as [|p ps IH]; intros log groups; cbn [foldl].
  - by rewrite app_nil_r.
  - rewrite IH, fmap_cons. by rewrite <-app_assoc.
Qed.

Lemma step_b_logged_spec (fs : node)
    (duplicate_groups : list (list (list string))) (log : list hash_call)
    (groups : gmap string (list (list string))) :
  step_b_logged hasher fs duplicate_groups log groups
  = (step_b hasher fs duplicate_groups groups, log ++ full_hash_calls groups).
Proof.
  unfold step_b_logged, step_b, full_hash_calls.
  generalize (map_to_list groups). intros l. revert duplicate_groups log.
  induction l as [|[phash cands] l IH]; intros dg log; cbn [foldl].
  - by rewrite app_nil_r.
  - rewrite bind_cons. destruct (length cands <? 2)%nat.
    + by rewrite IH.
    + unfold full_groups. rewrite hash_groups_logged_spec, IH.
      by rewrite <-app_assoc.
Qed.

Lemma size_groups_logged (fs : node) (l : list (Z * list (list string)))
    (duplicate_groups : list (list (list string))) (log : list hash_call) :
  foldl (λ '(duplicate_groups, log) '(size, paths),
           let '(partial_groups, log) :=
             hash_groups_logged partial_hash_of (partial_hash hasher fs)
               paths log in
           step_b_logged hasher fs duplicate_groups log partial_groups)
        (duplicate_groups, log) l
  = (foldl (λ duplicate_groups '(size, paths),
              step_b hasher fs duplicate_groups
                (partial_groups hasher fs paths))
           duplicate_groups l,
     log ++ ('(size, paths) ← l;
             (partial_hash_of <$> paths)
             ++ full_hash_calls (partial_groups hasher fs paths))).
Proof.
  revert duplicate_groups log.
  induction l as [|[size paths] l IH]; intros dg log; cbn [foldl].
  - by rewrite app_nil_r.
  - rewrite hash_groups_logged_spec, step_b_logged_spec, IH, bind_cons.
    unfold partial_groups. by rewrite <-!app_assoc.
Qed.

(** The logged run returns what the run returns, and its log is
    [hash_calls]. *)
Lemma find_duplicates_logged_spec (fs : node)
    (duplicate_groups : list (list (list string))) (log : list hash_call) :
  find_duplicates_logged hasher fs = Returned (duplicate_groups, log)
  ↔ find_duplicates hasher fs = Returned duplicate_groups
    ∧ ∃ size_groups,
        group_by_size fs = Returned size_groups
        ∧ log = hash_calls hasher fs size_groups.
Proof.
  unfold find_duplicates_logged, find_duplicates, hash_calls.
  destruct (group_by_size fs) as [size_groups|].
  2:{ split; [done|]. by intros [? _]. }
  cbn [mbind outcome_bind]. rewrite size_groups_logged. cbn [app]. split.
  - intros [= <- <-]. split; [done|]. by exists size_groups.
  - intros [[= <-] (? & [= <-] & ->)]. done.
Qed.

Lemma elem_of_full_hash_calls (groups : gmap string (list (list string)))
    (c : hash_call) :
  c ∈ full_hash_calls groups
  ↔ ∃ phash candidates p,
      groups !! phash = Some candidates ∧ (2 ≤ length candidates)%nat
      ∧ p ∈ candidates ∧ c = full_hash_of p.
Proof.
  unfold full_hash_calls. rewrite list_elem_of_bind. split.
  - intros ([phash cands] & Hc & Hin%elem_of_map_to_list).
    destruct (Nat.ltb_spec (length cands) 2); [by inversion Hc|].
    apply list_elem_of_fmap in Hc as (p & -> & Hp). by exists phash, cands, p.
  - intros (phash & cands & p & Hin%elem_of_map_to_list & Hlen & Hp & ->).
    exists (phash, cands). split; [|done].
    destruct (Nat.ltb_spec (length cands) 2); [lia|].
    by apply list_elem_of_fmap_2.
Qed.

Lemma elem_of_hash_calls (fs : node) (size_groups : gmap Z (list (list string)))
    (c : hash_call) :
  c ∈ hash_calls hasher fs size_groups
  ↔ ∃ size paths,
      size_groups !! size = Some paths
      ∧ ((∃ p, p ∈ paths ∧ c = partial_hash_of p)
         ∨ c ∈ full_hash_calls (partial_groups hasher fs paths)).
Proof.
  unfold hash_calls. rewrite list_elem_of_bind. split.
  - intros ([size paths] & Hc & Hin%elem_of_map_to_list).
    exists size, paths. split; [done|].
    apply elem_of_app in Hc as [(p & -> & Hp)%list_elem_of_fmap|Hc];
      [left; by exists p|by right].
  - intros (size & paths & Hin%elem_of_map_to_list & Hc).
    exists (size, paths). split; [|done]. apply elem_of_app.
    destruct Hc as [(p & Hp & ->)|Hc]; [left|by right].
    by apply list_elem_of_fmap_2.
Qed.

(** *** The pipeline *)

(** C1: two distinct files with the same bytes, both of which can be
    opened, get the same fingerprint for every byte limit (as do, for a
    given limit, any two files that agree on the bytes within the limit),
    and a run that completes puts them in one and the same duplicate
    group. *)
Theorem identical_files_grouped (fs : node)
    (duplicate_groups : list (list (list string))) (p1 p2 : list string)
    (content : list byte) :
  find_duplicates hasher fs = Returned duplicate_groups →
  ifstream_open fs p1 = Some (opened content) →
  ifstream_open fs p2 = Some (opened content) →
  p1 ≠ p2 →
  (∀ max_bytes,
     compute_hash hasher fs p1 max_bytes = compute_hash hasher fs p2 max_bytes)
  ∧ (∀ q1 q2 c1 c2 limit,
       ifstream_open fs q1 = Some (opened c1) →
       ifstream_open fs q2 = Some (opened c2) →
       0 < limit < 2 ^ 64 →
       take (Z.to_nat limit) c1 = take (Z.to_nat limit) c2 →
       compute_hash hasher fs q1 limit = compute_hash hasher fs q2 limit)
  ∧ ∃ g, g ∈ duplicate_groups ∧ p1 ∈ g ∧ p2 ∈ g.
Proof.
  intros Hrun Hopen1 Hopen2 Hne.
  split_and!; [| |].
  2:{ intros q1 q2 c1 c2 limit Hq1 Hq2 Hlimit Hrange.
      rewrite (compute_hash_opened _ _ _ _ Hq1), (compute_hash_opened _ _ _ _ Hq2).
      rewrite (hash_of_stream_prefix limit c1), (hash_of_stream_prefix limit c2)
        by done.
      by rewrite Hrange. }
  1:{ intros m. by rewrite (compute_hash_opened _ _ _ _ Hopen1),
                           (compute_hash_opened _ _ _ _ Hopen2). }
  assert (∀ max_bytes,
            compute_hash hasher fs p1 max_bytes
            = compute_hash hasher fs p2 max_bytes) as Hsame.
  { intros m. by rewrite (compute_hash_opened _ _ _ _ Hopen1),
                         (compute_hash_opened _ _ _ _ Hopen2). }
  destruct (find_duplicates_returns _ _ Hrun) as (size_groups & entries & Hgroups & Hscan).
  pose proof Hopen1 as (n1 & Hn1 & Hd1)%ifstream_open_Some.
  pose proof Hopen2 as (n2 & Hn2 & Hd2)%ifstream_open_Some.
  assert (∀ p n, lookup_path fs p = Some n →
                 regular_data n = Some (content, true) → p ≠ []) as Hroot.
  { intros p n Hp Hd ->. injection Hp as <-.
    destruct fs as [| [] cs | | |]; done. }
  (* phase 1: one size group holds both *)
  destruct (size_group_exists fs size_groups (Z.of_nat (length content))
              p1 p2 n1 n2) as (paths & Hpaths & Hin1 & Hin2);
    eauto using lookup_path_reaches.
  1,2: by exists content, true.
  (* step A: one partial group holds both *)
  set (phash := partial_hash hasher fs p1).
  set (cands := filter (λ p, partial_hash hasher fs p = phash) paths).
  assert (empty phash = false) as Hph.
  { apply not_true_is_false. unfold phash, partial_hash.
    rewrite compute_hash_empty, Hopen1. done. }
  assert (p1 ∈ cands ∧ p2 ∈ cands) as [Hc1 Hc2].
  { unfold cands, phash, partial_hash. rewrite !list_elem_of_filter.
    by rewrite Hsame. }
  assert (partial_groups hasher fs paths !! phash = Some cands) as Hcands.
  { apply hash_groups_lookup. split_and!; [done| |done]. by intros Hnil; rewrite Hnil in Hc1; inversion Hc1. }
  (* step B: one full group holds both *)
  set (fhash := full_hash hasher fs p1).
  set (g := filter (λ p, full_hash hasher fs p = fhash) cands).
  assert (empty fhash = false) as Hfh.
  { apply not_true_is_false. unfold fhash, full_hash.
    rewrite compute_hash_empty, Hopen1. done. }
  assert (p1 ∈ g ∧ p2 ∈ g) as [Hg1 Hg2].
  { unfold g, fhash, full_hash. rewrite !list_elem_of_filter.
    by rewrite Hsame. }
  assert (full_groups hasher fs cands !! fhash = Some g) as Hg.
  { apply hash_groups_lookup. split_and!; [done| |done]. by intros Hnil; rewrite Hnil in Hg1; inversion Hg1. }
  exists g. split_and!; [|done..].
  apply (find_duplicates_elem_of fs size_groups _ _ Hgroups Hrun).
  exists (Z.of_nat (length content)), paths. split; [done|].
  exists phash, cands, fhash.
  split_and!; [done|by apply (two_members _ p1 p2)|done|by apply (two_members _ p1 p2)].
Qed.

(** C2: no group with fewer than two members passes a phase. The size
    classifier returns groups of two or more. In a run, [partial_hash] is
    called only for the members of a size group, [full_hash] only for the
    members of a partial group of two or more: a file whose partial group is
    smaller is never read in full. A group comes out of step B only for a
    partial group of two or more, and a smaller partial group leaves the
    result as it was; every duplicate group has two or more members. *)
Theorem no_singleton_groups (fs : node) :
  (∀ size_groups size paths,
     group_by_size fs = Returned size_groups →
     size_groups !! size = Some paths → (2 ≤ length paths)%nat)
  ∧ (∀ duplicate_groups log,
       find_duplicates_logged hasher fs = Returned (duplicate_groups, log) →
       find_duplicates hasher fs = Returned duplicate_groups
       ∧ ∃ size_groups,
           group_by_size fs = Returned size_groups
           ∧ (∀ p, partial_hash_of p ∈ log
                   ↔ ∃ size paths,
                       size_groups !! size = Some paths ∧ p ∈ paths)
           ∧ (∀ p, full_hash_of p ∈ log
                   ↔ ∃ size paths phash candidates,
                       size_groups !! size = Some paths
                       ∧ partial_groups hasher fs paths !! phash
                         = Some candidates
                       ∧ (2 ≤ length candidates)%nat ∧ p ∈ candidates))
  ∧ (unique_names fs = true →
     ∀ duplicate_groups log size_groups size paths phash candidates p,
       find_duplicates_logged hasher fs = Returned (duplicate_groups, log) →
       group_by_size fs = Returned size_groups →
       size_groups !! size = Some paths →
       partial_groups hasher fs paths !! phash = Some candidates →
       (length candidates < 2)%nat → p ∈ candidates →
       full_hash_of p ∉ log)
  ∧ (∀ duplicate_groups groups g,
       g ∈ step_b hasher fs duplicate_groups groups →
       g ∈ duplicate_groups
       ∨ ∃ phash candidates fhash,
           groups !! phash = Some candidates ∧ (2 ≤ length candidates)%nat
           ∧ full_groups hasher fs candidates !! fhash = Some g)
  ∧ (∀ duplicate_groups phash candidates,
       (length candidates < 2)%nat →
       step_b hasher fs duplicate_groups {[phash := candidates]}
       = duplicate_groups)
  ∧ (∀ duplicate_groups g,
       find_duplicates hasher fs = Returned duplicate_groups →
       g ∈ duplicate_groups → (2 ≤ length g)%nat).
Proof.
  assert (∀ size_groups log p,
            log = hash_calls hasher fs size_groups →
            full_hash_of p ∈ log
            ↔ ∃ size paths phash candidates,
                size_groups !! size = Some paths
                ∧ partial_groups hasher fs paths !! phash = Some candidates
                ∧ (2 ≤ length candidates)%nat ∧ p ∈ candidates) as Hfull.
  { intros size_groups log p ->. rewrite elem_of_hash_calls. split.
    - intros (size & paths & Hpaths & [(? & _ & [=])|Hc]).
      apply elem_of_full_hash_calls in Hc
        as (phash & cands & p' & Hc & Hlen & Hp & [= ->]).
      by exists size, paths, phash, cands.
    - intros (size & paths & phash & cands & Hpaths & Hc & Hlen & Hp).
      exists size, paths. split; [done|right].
      apply elem_of_full_hash_calls. by exists phash, cands, p. }
  split_and!.
  - intros size_groups size paths Hgroups Hpaths.
    destruct (recursive_directory_iterator [] fs) as [entries|] eqn:Hscan.
    2:{ unfold group_by_size in Hgroups. by rewrite Hscan in Hgroups. }
    by destruct (proj1 (group_by_size_lookup _ _ _ _ _ Hscan Hgroups) Hpaths).
  - intros dg log (Hrun & size_groups & Hgroups & Hlog)%find_duplicates_logged_spec.
    split; [done|]. exists size_groups. split_and!; [done| |].
    + intros p. rewrite Hlog, elem_of_hash_calls. split.
      * intros (size & paths & Hpaths & [(? & Hp & [= ->])|Hc]);
          [by exists size, paths|].
        by apply elem_of_full_hash_calls in Hc as (? & ? & ? & _ & _ & _ & [=]).
      * intros (size & paths & Hpaths & Hp). exists size, paths.
        split; [done|left]. by exists p.
    + intros p. by apply Hfull.
  - intros Hu dg log size_groups size paths phash cands p
      (_ & sg & Hsg & Hlog)%find_duplicates_logged_spec Hgroups Hpaths Hc Hlen Hp
      Hcall.
    rewrite Hgroups in Hsg. injection Hsg as <-.
    apply (Hfull size_groups log p Hlog) in Hcall
      as (size' & paths' & phash' & cands' & Hpaths' & Hc' & Hlen' & Hp').
    apply hash_groups_lookup in Hc as (-> & _ & _).
    apply hash_groups_lookup in Hc' as (-> & _ & _).
    apply list_elem_of_filter in Hp as [Hph Hin].
    apply list_elem_of_filter in Hp' as [Hph' Hin'].
    destruct (size_group_member_size fs _ size paths p Hu Hgroups Hpaths Hin)
      as (n & Hn & Hr).
    destruct (size_group_member_size fs _ size' paths' p Hu Hgroups Hpaths' Hin')
      as (n' & Hn' & Hr').
    rewrite Hn in Hn'. injection Hn' as <-.
    pose proof (regular_of_size_unique _ _ _ Hr Hr') as <-.
    rewrite Hpaths in Hpaths'. injection Hpaths' as <-.
    rewrite <-Hph, <-Hph' in *. lia.
  - intros dg groups g [?|(phash & cands & fhash & ? & ? & ? & _)]%step_b_elem_of;
      [by left|right]. by exists phash, cands, fhash.
  - intros dg phash cands Hlen. unfold step_b.
    rewrite map_to_list_singleton. cbn [foldl].
    by destruct (Nat.ltb_spec (length cands) 2); [|lia].
  - intros dg g Hrun Hin.
    destruct (find_duplicates_returns _ _ Hrun) as (size_groups & _ & Hgroups & _).
    apply (find_duplicates_elem_of fs size_groups _ _ Hgroups Hrun) in Hin.
    by apply confirmed_members in Hin as [? _].
Qed.

Lemma duplicate_group_facts (fs : node)
    (duplicate_groups : list (list (list string))) (g : list (list string)) :
  unique_names fs = true →
  find_duplicates hasher fs = Returned duplicate_groups →
  g ∈ duplicate_groups →
  (2 ≤ length g)%nat
  ∧ ∃ size_groups size paths,
      group_by_size fs = Returned size_groups
      ∧ size_groups !! size = Some paths
      ∧ ∀ p, p ∈ g → p ∈ paths ∧ fs_file_size fs p = Returned size.
Proof.
  intros Hu Hrun Hin.
  destruct (find_duplicates_returns _ _ Hrun) as (size_groups & _ & Hgroups & _).
  apply (find_duplicates_elem_of fs size_groups _ _ Hgroups Hrun) in Hin.
  apply confirmed_members in Hin as (Hlen & size & paths & Hpaths & Hg).
  split; [done|].
  exists size_groups, size, paths. split_and!; [done..|].
  intros p [Hp _]%Hg. split; [done|].
  apply (size_group_elem_of fs size_groups size paths p Hgroups Hpaths) in Hp
    as (_ & n & Hr & c & r & Hdata & ->).
  unfold fs_file_size, file_size_of.
  by rewrite (reaches_lookup_path _ _ _ Hu Hr), Hdata.
Qed.

(** C3: the members of a duplicate group are paths of one size group, and
    they all have the size of that group. *)
Theorem duplicate_group_same_size (fs : node)
    (duplicate_groups : list (list (list string))) (g : list (list string)) :
  unique_names fs = true →
  find_duplicates hasher fs = Returned duplicate_groups →
  g ∈ duplicate_groups →
  ∃ size_groups size paths,
    group_by_size fs = Returned size_groups
    ∧ size_groups !! size = Some paths
    ∧ ∀ p, p ∈ g → p ∈ paths ∧ fs_file_size fs p = Returned size.
Proof.
  intros Hu Hrun Hin. by destruct (duplicate_group_facts fs _ g Hu Hrun Hin).
Qed.

(** C7: for a file that cannot be opened [compute_hash] returns the empty
    string; the file is in no partial group, in no full group and in no
    duplicate group, and both groupings are what they are without it. *)
Theorem unopenable_file_excluded (fs : node) (p : list string) :
  ifstream_open fs p = None →
  (∀ max_bytes, compute_hash hasher fs p max_bytes = EmptyString)
  ∧ (∀ paths phash candidates,
       partial_groups hasher fs paths !! phash = Some candidates →
       p ∉ candidates)
  ∧ (∀ candidates fhash dupes,
       full_groups hasher fs candidates !! fhash = Some dupes → p ∉ dupes)
  ∧ (∀ duplicate_groups g,
       find_duplicates hasher fs = Returned duplicate_groups →
       g ∈ duplicate_groups → p ∉ g)
  ∧ (∀ paths,
       partial_groups hasher fs paths
       = partial_groups hasher fs (filter (λ q, q ≠ p) paths))
  ∧ (∀ candidates,
       full_groups hasher fs candidates
       = full_groups hasher fs (filter (λ q, q ≠ p) candidates)).
Proof.
  intros Hopen.
  assert (∀ m, empty (compute_hash hasher fs p m) = true) as Hempty.
  { intros m. by apply compute_hash_empty. }
  split_and!.
  - intros m. by apply compute_hash_unopened.
  - intros paths phash cands (-> & _ & Hph)%hash_groups_lookup
      [Hp _]%list_elem_of_filter.
    unfold partial_hash in Hp. rewrite <-Hp, Hempty in Hph. done.
  - intros cands fhash dupes (-> & _ & Hfh)%hash_groups_lookup
      [Hp _]%list_elem_of_filter.
    unfold full_hash in Hp. rewrite <-Hp, Hempty in Hfh. done.
  - intros dg g Hrun Hin Hp.
    destruct (find_duplicates_returns _ _ Hrun) as (size_groups & _ & Hgroups & _).
    apply (find_duplicates_elem_of fs size_groups _ _ Hgroups Hrun) in Hin.
    apply confirmed_members in Hin as (_ & size & paths & _ & Hg).
    destruct (Hg p Hp) as (_ & Hph & _).
    unfold partial_hash in Hph. by rewrite Hempty in Hph.
  - intros paths. apply hash_groups_without, Hempty.
  - intros cands. apply hash_groups_without, Hempty.
Qed.

Lemma iterator_returns_directory (fs : node) (entries : list directory_entry) :
  recursive_directory_iterator [] fs = Returned entries →
  ∃ children, fs = Directory true children.
Proof. destruct fs as [| [] cs | | |]; try done. by exists cs. Qed.

(** C4: for every group the report gives the size that all its [n] members
    have and, as wasted space, that size times [n - 1]; the total is the sum
    of the values reported for the groups. The arithmetic is that of
    [uintmax_t], and it is exact as long as the sum is below 2^64. *)
Theorem wasted_space_report (fs : node)
    (duplicate_groups : list (list (list string))) :
  unique_names fs = true →
  find_duplicates hasher fs = Returned duplicate_groups →
  ∃ r,
    main hasher fs = Returned (Some r)
    ∧ members <$> lines r = duplicate_groups
    ∧ Forall (λ l,
                (∀ p, p ∈ members l →
                      fs_file_size fs p = Returned (each_size l))
                ∧ wasted l
                  = wrap64 (each_size l * (Z.of_nat (length (members l)) - 1)))
             (lines r)
    ∧ total_wasted r = wrap64 (sum_of wasted (lines r))
    ∧ (sum_of exact_wasted (lines r) < 2 ^ 64 →
       Forall (λ l,
                 wasted l
                 = each_size l * (Z.of_nat (length (members l)) - 1))
              (lines r)
       ∧ total_wasted r = sum_of wasted (lines r)).
Proof.
  intros Hu Hrun.
  assert (∀ g, g ∈ duplicate_groups →
               g ≠ [] ∧ ∃ size, ∀ p, p ∈ g → fs_file_size fs p = Returned size)
    as Hgroups.
  { intros g Hin.
    destruct (duplicate_group_facts fs _ g Hu Hrun Hin)
      as (Hlen & size_groups & size & paths & _ & _ & Hsize).
    split; [intros Heq; rewrite Heq in Hlen; cbn in Hlen; lia|].
    exists size. intros p Hp. by apply Hsize. }
  destruct (report_groups_lines fs duplicate_groups
              {| lines := []; total_wasted := 0 |})
    as (ls & Hreport & Hmembers & Hlines); [cbn; lia|done|].
  cbn [lines total_wasted app] in Hreport. rewrite Z.add_0_l in Hreport.
  exists {| lines := ls; total_wasted := wrap64 (sum_of wasted ls) |}.
  cbn [lines total_wasted].
  destruct (find_duplicates_returns _ _ Hrun) as (_ & entries & _ & Hscan).
  destruct (iterator_returns_directory _ _ Hscan) as [children ->].
  split_and!; [|done..|].
  - unfold main, report_groups. rewrite Hrun. cbn [mbind outcome_bind].
    by rewrite Hreport.
  - intros Hfits.
    destruct (wasted_exact_when_fits _ ls Hlines) as (Hpos & Hexact & Hsum);
      [|done|].
    + rewrite Forall_forall. intros l Hl.
      destruct (Hgroups (members l)) as [Hne _]; [|done].
      rewrite <-Hmembers. by apply list_elem_of_fmap_2.
    + split; [done|]. rewrite Hsum. apply wrap64_small. lia.
Qed.

(** *** Empty files *)

Lemma two_empty_files_open (a b : string) (p : list string) :
  p ∈ [[a]; [b]] →
  ifstream_open (Directory true [(a, File [] true); (b, File [] true)]) p
  = Some (opened []).
Proof.
  rewrite !elem_of_cons, elem_of_nil. intros [->|[->|[]]];
    unfold ifstream_open; cbn [lookup_path find_child].
  - by rewrite String.eqb_refl.
  - rewrite String.eqb_refl. by destruct (String.eqb b a).
Qed.

Lemma two_empty_files_size_groups (a b : string) :
  group_by_size (Directory true [(a, File [] true); (b, File [] true)])
  = Returned {[0 := [[a]; [b]]]}.
Proof.
  unfold group_by_size. cbn [recursive_directory_iterator list_directory].
  cbn [mbind outcome_bind app]. rewrite size_loop_classify.
  cbn [mbind outcome_bind]. reflexivity.
Qed.

(** C6: a file without bytes leaves both accumulators at zero and gets the
    fingerprint of 32 zeros, which is not the sentinel; a directory with
    just two such files yields one duplicate group with both of them and
    no wasted space. *)
Theorem zero_byte_files (fs : node) (p : list string) (max_bytes : Z) :
  ifstream_open fs p = Some (opened []) →
  read_loop hasher max_bytes (opened []) initial = initial
  ∧ compute_hash hasher fs p max_bytes
    = "00000000000000000000000000000000"%string
  ∧ empty (compute_hash hasher fs p max_bytes) = false
  ∧ ∀ a b : string,
      let two := Directory true [(a, File [] true); (b, File [] true)] in
      find_duplicates hasher two = Returned [[[a]; [b]]]
      ∧ main hasher two
        = Returned (Some {| lines := [Line [[a]; [b]] 0 0];
                            total_wasted := 0 |}).
Proof.
  intros Hopen.
  assert (∀ fs' q m, ifstream_open fs' q = Some (opened []) →
                     compute_hash hasher fs' q m
                     = "00000000000000000000000000000000"%string) as Hzero.
  { intros fs' q m Hq. rewrite (compute_hash_opened _ _ _ _ Hq).
    apply zero_byte_hash. }
  split_and!.
  - apply read_loop_at_end.
  - by apply Hzero.
  - by rewrite Hzero.
  - intros a b two.
    assert (∀ hash_of,
              (∀ q, q ∈ [[a]; [b]] → hash_of q
                    = "00000000000000000000000000000000"%string) →
              hash_groups hash_of [[a]; [b]]
              = {["00000000000000000000000000000000"%string := [[a]; [b]]]})
      as Hgroup.
    { intros hash_of Hall. by apply hash_groups_uniform. }
    assert (find_duplicates hasher two = Returned [[[a]; [b]]]) as Hfound.
    { unfold find_duplicates. subst two. rewrite two_empty_files_size_groups.
      cbn [mbind outcome_bind]. rewrite map_to_list_singleton. cbn [foldl].
      unfold step_b, partial_groups. rewrite Hgroup.
      2:{ intros q Hq. by apply Hzero, two_empty_files_open. }
      rewrite map_to_list_singleton. cbn [foldl length Nat.ltb Nat.leb].
      unfold collect, full_groups. rewrite Hgroup.
      2:{ intros q Hq. by apply Hzero, two_empty_files_open. }
      rewrite map_to_list_singleton. done. }
    split; [done|].
    unfold main. subst two. rewrite Hfound. cbn [mbind outcome_bind].
    unfold report_groups. cbn [for_each]. unfold report_group, fs_file_size.
    cbn [lookup_path find_child]. by rewrite String.eqb_refl.
Qed.

(** *** Errors of the traversal *)

(** C8, as the program has it: the scan throws exactly when a directory
    cannot be opened or the status of an entry cannot be read (a file in a
    directory that may not be searched, a loop of symbolic links), and then
    [find_duplicates] and [main] throw, for nothing catches the exception;
    an entry that merely cannot be resolved, a dangling symbolic link in
    whatever directory, is left out and the scan goes on. *)
Theorem traversal_error_ends_run (listable : bool)
    (children : list (string * node)) :
  (group_by_size (Directory listable children) = Thrown
   ↔ blocked (Directory listable children) = true
     ∨ status_error_below (Directory listable children))
  ∧ (blocked (Directory listable children) = true
     ∨ status_error_below (Directory listable children) →
     find_duplicates hasher (Directory listable children) = Thrown
     ∧ main hasher (Directory listable children) = Thrown)
  ∧ (∀ q n,
       q ≠ [] → reaches (Directory listable children) q n →
       n = Unstatable ∨ n = Symlink unresolvable →
       group_by_size (Directory listable children) = Thrown)
  ∧ (∀ size_groups q n,
       group_by_size (Directory listable children) = Returned size_groups →
       q ≠ [] → reaches (Directory listable children) q n →
       is_regular_file (Entry q n) ≠ Thrown
       ∧ (is_regular_file (Entry q n) = Returned true →
          file_size (Entry q n) ≠ Thrown))
  ∧ (∀ fs',
       without_dangling_link (Directory listable children) fs' →
       group_by_size (Directory listable children) = group_by_size fs').
Proof.
  pose proof (group_by_size_thrown listable children) as Hthrown.
  split_and!; [done| | | |].
  - intros Hscan%Hthrown. unfold main, find_duplicates. by rewrite Hscan.
  - intros q n Hq Hr Hn. apply Hthrown. right. exists q, n.
    split_and!; [done..|]. by destruct Hn as [->| ->].
  - intros size_groups q n Hgroups Hq Hr.
    assert (status n ≠ none) as Hn.
    { intros Hn.
      assert (group_by_size (Directory listable children) = Thrown) as Hscan;
        [|congruence].
      apply Hthrown. right. by exists q, n. }
    unfold is_regular_file, file_size, file_size_of. cbn [entry_node].
    by destruct n as [c r| | [c r| | | |] | |].
  - intros fs' Hfs'. by apply group_by_size_without_dangling_link.
Qed.

(** *** Symbolic links *)

Lemma status_regular (n : node) (size : Z) :
  status n = regular ∧ file_size_of n = Returned size ↔ regular_of_size n size.
Proof.
  unfold regular_of_size, file_size_of.
  destruct n as [c r| | [c r| | | |] | |]; cbn; split;
    try (by intros [? ?]); try (by intros (? & ? & ? & ?)).
  - intros [_ [= <-]]. by exists c, r.
  - intros (? & ? & [= <- <-] & ->). done.
  - intros [_ [= <-]]. by exists c, r.
  - intros (? & ? & [= <- <-] & ->). done.
Qed.

(** C9, as the program has it: a size group holds exactly the paths below
    the root that denote, symbolic links followed, a regular file of that
    size, and every size that two such paths share has its group; a member
    of a size group or of a duplicate group is a regular file or a symbolic
    link to one, never a directory, a special file or a link to anything
    else. *)
Theorem size_groups_follow_links (fs : node)
    (size_groups : gmap Z (list (list string))) :
  unique_names fs = true →
  group_by_size fs = Returned size_groups →
  (∀ size paths p,
     size_groups !! size = Some paths →
     p ∈ paths
     ↔ p ≠ [] ∧ ∃ n, lookup_path fs p = Some n ∧ status n = regular
                     ∧ file_size_of n = Returned size)
  ∧ (∀ size p1 p2 n1 n2,
       p1 ≠ [] → p2 ≠ [] → p1 ≠ p2 →
       lookup_path fs p1 = Some n1 → status n1 = regular →
       file_size_of n1 = Returned size →
       lookup_path fs p2 = Some n2 → status n2 = regular →
       file_size_of n2 = Returned size →
       ∃ paths, size_groups !! size = Some paths)
  ∧ (∀ size paths p n,
       size_groups !! size = Some paths → p ∈ paths →
       lookup_path fs p = Some n →
       ∃ content readable,
         n = File content readable ∨ n = Symlink (to_file content readable))
  ∧ (∀ duplicate_groups g p n,
       find_duplicates hasher fs = Returned duplicate_groups →
       g ∈ duplicate_groups → p ∈ g →
       lookup_path fs p = Some n →
       ∃ content readable,
         n = File content readable ∨ n = Symlink (to_file content readable)).
Proof.
  intros Hu Hgroups.
  assert (∀ size paths p,
            size_groups !! size = Some paths →
            p ∈ paths
            ↔ p ≠ [] ∧ ∃ n, lookup_path fs p = Some n ∧ status n = regular
                            ∧ file_size_of n = Returned size) as Hmember.
  { intros size paths p Hpaths.
    rewrite (size_group_elem_of fs size_groups size paths p Hgroups Hpaths).
    apply and_iff_compat_l. split.
    - intros (n & Hr & Hs). exists n. rewrite status_regular.
      split; [by apply reaches_lookup_path|done].
    - intros (n & Hn & Hs). exists n. rewrite <-status_regular.
      split; [by apply lookup_path_reaches|done]. }
  assert (∀ size paths p n,
            size_groups !! size = Some paths → p ∈ paths →
            lookup_path fs p = Some n →
            ∃ content readable,
              n = File content readable
              ∨ n = Symlink (to_file content readable)) as Hkind.
  { intros size paths p n Hpaths Hin Hn.
    apply (Hmember _ _ _ Hpaths) in Hin as (_ & n' & Hn' & Hreg & _).
    rewrite Hn in Hn'. injection Hn' as <-.
    destruct n as [c r| | [c r| | | |] | |]; try done; exists c, r; eauto. }
  split_and!; [done| |done|].
  - intros size p1 p2 n1 n2 Hp1 Hp2 Hne Hn1 Hr1 Hs1 Hn2 Hr2 Hs2.
    destruct (size_group_exists fs size_groups size p1 p2 n1 n2)
      as (paths & Hpaths & _); eauto using lookup_path_reaches.
    + by apply status_regular.
    + by apply status_regular.
  - intros dg g p n Hrun Hg Hp Hn.
    apply (find_duplicates_elem_of fs size_groups _ _ Hgroups Hrun) in Hg.
    apply confirmed_members in Hg as (_ & size & paths & Hpaths & Hall).
    destruct (Hall p Hp) as [Hin _]. by eapply Hkind.
Qed.

End FingerprintFacts.

(** ** The statements at work *)

Lemma no_singleton_groups_witness :
  full_hash_of ["c"%string]
  ∉ [partial_hash_of ["a"%string]; partial_hash_of ["b"%string];
     partial_hash_of ["c"%string];
     partial_hash_of ["sub"%string; "u"%string];
     full_hash_of ["a"%string]; full_hash_of ["b"%string]].
Proof.
  apply (proj1 (proj2 (proj2 (no_singleton_groups fnv1a sample_tree))) eq_refl
           [[["a"%string]; ["b"%string]]] _
           {[100 := [["a"%string]; ["b"%string]; ["c"%string];
                     ["sub"%string; "u"%string]]]}
           100
           [["a"%string]; ["b"%string]; ["c"%string];
            ["sub"%string; "u"%string]]
           (partial_hash fnv1a sample_tree ["c"%string]) [["c"%string]]).
  - vm_compute. reflexivity.
  - reflexivity.
  - reflexivity.
  - vm_compute. reflexivity.
  - cbn. lia.
  - apply list_elem_of_here.
Defined.

Lemma small_file_partial_hash_is_full_hash_witness :
  partial_hash fnv1a sample_tree ["a"%string]
  = full_hash fnv1a sample_tree ["a"%string].
Proof.
  apply (small_file_partial_hash_is_full_hash fnv1a sample_tree ["a"%string]
           (repeat x41 100)); [reflexivity|vm_compute; discriminate].
Defined.

Lemma identical_files_grouped_witness :
  ∃ g, g ∈ [[["a"%string]; ["b"%string]]]
       ∧ ["a"%string] ∈ g ∧ ["b"%string] ∈ g.
Proof.
  apply (identical_files_grouped fnv1a sample_tree
           [[["a"%string]; ["b"%string]]] ["a"%string] ["b"%string]
           (repeat x41 100));
    [vm_compute; reflexivity|reflexivity|reflexivity|discriminate].
Defined.

Lemma duplicate_group_same_size_witness :
  ∃ size_groups size paths,
    group_by_size sample_tree = Returned size_groups
    ∧ size_groups !! size = Some paths
    ∧ ∀ p, p ∈ [["a"%string]; ["b"%string]] →
           p ∈ paths ∧ fs_file_size sample_tree p = Returned size.
Proof.
  apply (duplicate_group_same_size fnv1a sample_tree
           [[["a"%string]; ["b"%string]]]);
    [reflexivity|vm_compute; reflexivity|apply list_elem_of_here].
Defined.

Lemma wasted_space_report_witness :
  ∃ r,
    main fnv1a sample_tree = Returned (Some r)
    ∧ members <$> lines r = [[["a"%string]; ["b"%string]]]
    ∧ Forall (λ l,
                (∀ p, p ∈ members l →
                      fs_file_size sample_tree p = Returned (each_size l))
                ∧ wasted l
                  = wrap64 (each_size l * (Z.of_nat (length (members l)) - 1)))
             (lines r)
    ∧ total_wasted r = wrap64 (sum_of wasted (lines r))
    ∧ (sum_of exact_wasted (lines r) < 2 ^ 64 →
       Forall (λ l,
                 wasted l
                 = each_size l * (Z.of_nat (length (members l)) - 1))
              (lines r)
       ∧ total_wasted r = sum_of wasted (lines r)).
Proof.
  apply (wasted_space_report fnv1a sample_tree);
    [reflexivity|vm_compute; reflexivity].
Defined.

Lemma zero_byte_files_witness :
  compute_hash fnv1a (Directory true [("e"%string, File [] true)])
    ["e"%string] 4096
  = "00000000000000000000000000000000"%string.
Proof.
  apply (zero_byte_files fnv1a (Directory true [("e"%string, File [] true)])
           ["e"%string] 4096). reflexivity.
Defined.

Lemma unopenable_file_excluded_witness :
  ifstream_open sample_tree ["sub"%string; "u"%string] = None
  ∧ compute_hash fnv1a sample_tree ["sub"%string; "u"%string] 4096
    = EmptyString.
Proof.
  split; [reflexivity|].
  apply (unopenable_file_excluded fnv1a sample_tree
           ["sub"%string; "u"%string]). reflexivity.
Defined.

(** Of three files of one size, the two with the same bytes are reported,
    with the space of one of them wasted; the file that cannot be opened
    does not show. *)
Example same_size_same_bytes :
  main fnv1a sample_tree
  = Returned (Some {| lines := [Line [["a"%string]; ["b"%string]] 100 100];
                      total_wasted := 100 |}).
Proof. vm_compute. reflexivity. Qed.

(** A difference behind the first 4096 bytes: one partial group, which the
    full hashes split; nothing is reported. *)
Example same_prefix_other_bytes :
  (∃ phash,
     partial_groups fnv1a late_difference_tree [["x"%string]; ["y"%string]]
       !! phash
     = Some [["x"%string]; ["y"%string]])
  ∧ find_duplicates fnv1a late_difference_tree = Returned [].
Proof.
  split; [|vm_compute; reflexivity].
  exists (partial_hash fnv1a late_difference_tree ["x"%string]).
  vm_compute. reflexivity.
Qed.

(** The scan of [locked_tree] throws, and the run ends with it; without the
    locked directory the two files make a size group. *)
Lemma traversal_error_is_fatal :
  group_by_size locked_tree = Thrown
  ∧ find_duplicates fnv1a locked_tree = Thrown
  ∧ main fnv1a locked_tree = Thrown
  ∧ ∃ size_groups,
      group_by_size unlocked_tree = Returned size_groups
      ∧ size_groups !! 1 = Some [["a"%string]; ["b"%string]].
Proof.
  split_and!; [reflexivity..|]. eexists. split; reflexivity.
Qed.

(** A file whose status cannot be read ends the run from
    [entry.file_size()], a loop of symbolic links from
    [entry.is_regular_file()]. *)
Example status_error_is_fatal :
  is_regular_file (Entry ["d"%string; "f"%string] Unstatable) = Returned true
  ∧ file_size (Entry ["d"%string; "f"%string] Unstatable) = Thrown
  ∧ group_by_size unsearchable_tree = Thrown
  ∧ main fnv1a unsearchable_tree = Thrown
  ∧ is_regular_file (Entry ["loop"%string] (Symlink unresolvable)) = Thrown
  ∧ group_by_size looping_tree = Thrown
  ∧ main fnv1a looping_tree = Thrown.
Proof. split_and!; reflexivity. Qed.

(** The dangling link of [dangling_tree], one directory down, is passed
    over. *)
Example dangling_link_is_skipped :
  without_dangling_link dangling_tree no_link_tree
  ∧ group_by_size dangling_tree
    = Returned {[1 := [["a"%string]; ["b"%string]]]}
  ∧ group_by_size no_link_tree
    = Returned {[1 := [["a"%string]; ["b"%string]]]}.
Proof.
  split_and!; [|reflexivity..].
  apply (dangling_below true [("a"%string, File [x41] true)] "d"%string
           (Directory true [("gone"%string, Symlink dangling)])
           (Directory true []) [("b"%string, File [x41] true)]).
  apply (dangling_here true [] "gone"%string []).
Qed.

(** The calls of a run on [sample_tree]: the partial hash of the four files
    of 100 bytes, then the full hash of the two that share a partial hash;
    the third file that can be opened is alone in its partial group and is
    not read in full. *)
Example sample_tree_hash_calls :
  find_duplicates_logged fnv1a sample_tree
  = Returned
      ([[["a"%string]; ["b"%string]]],
       [partial_hash_of ["a"%string]; partial_hash_of ["b"%string];
        partial_hash_of ["c"%string];
        partial_hash_of ["sub"%string; "u"%string];
        full_hash_of ["a"%string]; full_hash_of ["b"%string]]).
Proof. vm_compute. reflexivity. Qed.

(** The symbolic link of [linked_tree] is in a size group, and in a
    duplicate group. *)
Lemma symlink_in_size_group :
  (∃ size_groups,
     group_by_size linked_tree = Returned size_groups
     ∧ size_groups !! 1 = Some [["a"%string]; ["l"%string]])
  ∧ symlink_status <$> lookup_path linked_tree ["l"%string] = Some symlink
  ∧ find_duplicates fnv1a linked_tree
    = Returned [[["a"%string]; ["l"%string]]].
Proof.
  split_and!; [eexists; split; reflexivity|reflexivity|vm_compute; reflexivity].
Qed.

Lemma size_groups_follow_links_witness :
  ["l"%string] ∈ [["a"%string]; ["l"%string]]
  ↔ ["l"%string] ≠ []
    ∧ ∃ n, lookup_path linked_tree ["l"%string] = Some n
           ∧ status n = regular ∧ file_size_of n = Returned 1.
Proof.
  apply (size_groups_follow_links fnv1a linked_tree
           {[1 := [["a"%string]; ["l"%string]]]}); reflexivity.
Defined.

(** * More about the code *)

(** ** Hexadecimal *)

Lemma list_ascii_of_string_app (s t : string) :
  list_ascii_of_string (s +:+ t)
  = list_ascii_of_string s ++ list_ascii_of_string t.
Proof. induction s as [|c s IH]; simpl; [done|]. by rewrite IH. Qed.

Lemma list_ascii_of_string_inj (s t : string) :
  list_ascii_of_string s = list_ascii_of_string t → s = t.
Proof.
  intros Heq. rewrite <-(string_of_list_ascii_of_string s),
    <-(string_of_list_ascii_of_string t). by rewrite Heq.
Qed.

Lemma list_ascii_of_string_length (s : string) :
  length (list_ascii_of_string s) = String.length s.
Proof. induction s as [|c s IH]; cbn; [done|]. by f_equal. Qed.

Lemma hex_digit_code (d : Z) :
  0 ≤ d < 16 →
  nat_of_ascii (hex_digit d) = Z.to_nat (if d <? 10 then 48 + d else 87 + d).
Proof.
  intros Hd. unfold hex_digit.
  destruct (d <? 10) eqn:Hlt; apply nat_ascii_embedding; lia.
Qed.

Lemma hex_digit_is_hex (d : Z) : 0 ≤ d < 16 → is_hex_digit (hex_digit d) = true.
Proof.
  intros Hd. unfold is_hex_digit. cbn zeta. rewrite hex_digit_code by done.
  destruct (Z.ltb_spec d 10).
  - apply orb_true_iff. left. apply andb_true_iff.
    split; apply Nat.leb_le; lia.
  - apply orb_true_iff. right. apply andb_true_iff.
    split; apply Nat.leb_le; lia.
Qed.

Lemma hex_digit_inj (d e : Z) :
  0 ≤ d < 16 → 0 ≤ e < 16 → hex_digit d = hex_digit e → d = e.
Proof.
  intros Hd He Heq. apply (f_equal nat_of_ascii) in Heq.
  rewrite !hex_digit_code in Heq by done.
  destruct (Z.ltb_spec d 10), (Z.ltb_spec e 10); lia.
Qed.

Lemma hex_field_hex (n : nat) (z : Z) :
  Forall (λ c, is_hex_digit c = true) (list_ascii_of_string (hex_field n z)).
Proof.
  revert z. induction n as [|n IH]; intros z; cbn [hex_field]; [constructor|].
  rewrite list_ascii_of_string_app. apply Forall_app. split; [apply IH|].
  cbn. constructor; [|constructor].
  apply hex_digit_is_hex, Z.mod_pos_bound. lia.
Qed.

Lemma hex_field_inj (n : nat) (y z : Z) :
  0 ≤ y < 16 ^ Z.of_nat n → 0 ≤ z < 16 ^ Z.of_nat n →
  hex_field n y = hex_field n z → y = z.
Proof.
  revert y z. induction n as [|n IH]; intros y z Hy Hz Heq.
  - cbn in Hy, Hz. lia.
  - cbn [hex_field] in Heq.
    apply (f_equal list_ascii_of_string) in Heq.
    rewrite !list_ascii_of_string_app in Heq. cbn in Heq.
    apply app_inj_tail in Heq as [Hhigh Hlow].
    apply list_ascii_of_string_inj in Hhigh.
    rewrite Nat2Z.inj_succ, Z.pow_succ_r in Hy, Hz by lia.
    apply IH in Hhigh.
    2,3: split; [apply Z.div_pos; lia|apply Z.div_lt_upper_bound; lia].
    apply hex_digit_inj in Hlow; [|apply Z.mod_pos_bound; lia..].
    rewrite (Z.div_mod y 16), (Z.div_mod z 16) by lia. by rewrite Hhigh, Hlow.
Qed.

(** ** The range of the accumulators *)

Lemma lxor_range (x y : Z) :
  0 ≤ x < 2 ^ 64 → 0 ≤ y < 2 ^ 64 → 0 ≤ Z.lxor x y < 2 ^ 64.
Proof.
  intros Hx Hy.
  assert (0 ≤ Z.lxor x y) as Hpos by (apply Z.lxor_nonneg; lia).
  split; [done|].
  destruct (decide (Z.lxor x y = 0)) as [->|Hne]; [lia|].
  apply Z.log2_lt_pow2; [lia|].
  pose proof (Z.log2_lxor x y) as Hlog.
  assert (Z.log2 x < 64) as Hlx.
  { destruct (decide (x = 0)) as [->|]; [done|]. apply Z.log2_lt_pow2; lia. }
  assert (Z.log2 y < 64) as Hly.
  { destruct (decide (y = 0)) as [->|]; [done|]. apply Z.log2_lt_pow2; lia. }
  lia.
Qed.

Lemma absorb_in_range (hasher : list byte → Z) (chunk : list byte)
    (a : accumulators) :
  in_range a → in_range (absorb hasher chunk a).
Proof.
  intros (H1 & H2 & _). unfold in_range. cbn [absorb hash1 hash2 total_read].
  split_and!; try apply lxor_range; try done; apply wrap64_range.
Qed.

Lemma absorb_all_cons (hasher : list byte → Z) (chunk : list byte)
    (chunks : list (list byte)) (a : accumulators) :
  absorb_all hasher (chunk :: chunks) a
  = absorb_all hasher chunks (absorb hasher chunk a).
Proof. done. Qed.

Lemma absorb_all_in_range (hasher : list byte → Z) (chunks : list (list byte))
    (a : accumulators) :
  in_range a → in_range (absorb_all hasher chunks a).
Proof.
  revert a. induction chunks as [|b bs IH]; intros a Ha; [done|].
  rewrite absorb_all_cons. by apply IH, absorb_in_range.
Qed.

Lemma initial_in_range : in_range initial.
Proof. unfold in_range, initial. cbn. lia. Qed.

Lemma hex_string_inj (a b : accumulators) :
  in_range a → in_range b → hex_string a = hex_string b → same_hashes a b.
Proof.
  intros (Ha1 & Ha2 & _) (Hb1 & Hb2 & _) Heq. unfold hex_string in Heq.
  apply (f_equal list_ascii_of_string) in Heq.
  rewrite !list_ascii_of_string_app in Heq.
  apply app_inj_1 in Heq as [Heq1 Heq2].
  2:{ by rewrite !list_ascii_of_string_length, !hex_field_length. }
  apply list_ascii_of_string_inj in Heq1, Heq2.
  split; (apply (hex_field_inj 16); [..|done]);
    change (16 ^ Z.of_nat 16) with (2 ^ 64); done.
Qed.

(** ** Blocks *)

Lemma blocks_upto_enough (n m : nat) (c : list byte) :
  (length c ≤ n)%nat → (length c ≤ m)%nat → blocks_upto n c = blocks_upto m c.
Proof.
  revert m c. induction n as [|n IH]; intros m c Hn Hm.
  - destruct c; [|cbn in Hn; lia]. by destruct m.
  - destruct c as [|x c]; [by destruct m|].
    destruct m as [|m]; [cbn in Hm; lia|]. cbn [blocks_upto]. f_equal.
    apply IH; rewrite length_drop; cbn [length] in *; lia.
Qed.

Lemma blocks_nil : blocks [] = [].
Proof. done. Qed.

Lemma blocks_cons (c : list byte) :
  c ≠ [] →
  blocks c = take (Z.to_nat 8192) c :: blocks (drop (Z.to_nat 8192) c).
Proof.
  intros Hc. destruct c as [|x c]; [done|]. unfold blocks at 1.
  cbn [length blocks_upto]. f_equal.
  apply blocks_upto_enough; rewrite ?length_drop; cbn [length]; lia.
Qed.

Lemma blocks_short (c : list byte) :
  c ≠ [] → Z.of_nat (length c) ≤ 8192 → blocks c = [c].
Proof.
  intros Hc Hlen. rewrite blocks_cons by done.
  rewrite take_ge, drop_ge by lia. done.
Qed.

Lemma blocks_ind (P : list byte → Prop) :
  P [] →
  (∀ c, c ≠ [] → P (drop (Z.to_nat 8192) c) → P c) →
  ∀ c, P c.
Proof.
  intros Hnil Hcons c. remember (length c) as n eqn:Hn. revert c Hn.
  induction (lt_wf n) as [n _ IH]. intros c ->.
  destruct (decide (c = [])) as [->|Hc]; [done|].
  apply Hcons; [done|]. eapply IH; [|done].
  rewrite length_drop. destruct c; [done|]. cbn [length]. lia.
Qed.

Lemma concat_blocks (c : list byte) : concat (blocks c) = c.
Proof.
  induction c as [|c Hc IH] using blocks_ind; [apply eq_refl|].
  rewrite blocks_cons, concat_cons, IH by done. apply take_drop.
Qed.

Lemma blocks_lengths (c : list byte) :
  Forall (λ b, 0 < Z.of_nat (length b) ≤ 8192) (blocks c).
Proof.
  induction c as [|c Hc IH] using blocks_ind; [constructor|].
  rewrite blocks_cons by done. constructor; [|done].
  rewrite length_take. destruct c; [done|]. cbn [length]. lia.
Qed.

(** All blocks but the last are full. *)
Lemma blocks_full (c : list byte) (bs : list (list byte)) (b : list byte) :
  blocks c = bs ++ [b] → Forall (λ b', Z.of_nat (length b') = 8192) bs.
Proof.
  revert bs. induction c as [|c Hc IH] using blocks_ind; intros bs Heq.
  - by destruct bs.
  - rewrite blocks_cons in Heq by done.
    destruct bs as [|b' bs]; [constructor|].
    injection Heq as <- Heq. constructor; [|by apply IH].
    rewrite length_take.
    destruct (decide (Z.to_nat 8192 ≤ length c)%nat); [lia|].
    rewrite drop_ge, blocks_nil in Heq by lia. by destruct bs.
Qed.

Section LoopFacts.

Variable hasher : list byte → Z.

Lemma absorb_all_total_read (chunks : list (list byte)) (a : accumulators) :
  0 ≤ total_read a < 2 ^ 64 →
  total_read (absorb_all hasher chunks a)
  = wrap64 (total_read a + Z.of_nat (length (concat chunks))).
Proof.
  revert a. induction chunks as [|b bs IH]; intros a Ha.
  - cbn. rewrite Z.add_0_r. by rewrite wrap64_small.
  - rewrite absorb_all_cons. cbn [concat].
    rewrite IH by (cbn [absorb total_read]; apply wrap64_range).
    cbn [absorb total_read]. rewrite wrap64_add_l, length_app. f_equal. lia.
Qed.

(** Without a limit the loop absorbs the blocks of the file, one after the
    other. *)
Lemma read_loop_blocks (c : list byte) (a : accumulators) (g : Z) :
  read_loop hasher 0 {| pending := c; good := true; gcount := g |} a
  = absorb_all hasher (blocks c) a.
Proof.
  revert a g. induction c as [|c Hc IH] using blocks_ind; intros a g.
  - apply read_loop_at_end.
  - destruct (Z.lt_ge_cases (Z.of_nat (length c)) 8192) as [Hshort|Hlong].
    + rewrite read_loop_single by done. rewrite blocks_short by (done || lia).
      replace (0 <? Z.of_nat (length c)) with true; [done|].
      symmetry. apply Z.ltb_lt. destruct c; [done|]. cbn [length]. lia.
    + rewrite read_loop_step. cbn [good].
      change (to_read 0 a) with 8192. cbn [andb Z.ltb Z.compare].
      rewrite turn_spelled. cbn zeta. cbn [pending good].
      change (to_read 0 a) with 8192. cbn [andb Z.ltb Z.compare].
      replace (8192 <=? Z.of_nat (length c)) with true
        by (symmetry; apply Z.leb_le; lia).
      replace (0 <? Z.of_nat (length (take (Z.to_nat 8192) c))) with true
        by (symmetry; apply Z.ltb_lt; rewrite length_take; lia).
      rewrite IH, (blocks_cons c) by done. symmetry. apply absorb_all_cons.
Qed.

(** With a limit it absorbs the blocks of what the limit still allows. *)
Lemma read_loop_limited_blocks (max_bytes : Z) (c : list byte)
    (a : accumulators) (g : Z) :
  0 < max_bytes < 2 ^ 64 →
  0 ≤ total_read a < max_bytes →
  read_loop hasher max_bytes {| pending := c; good := true; gcount := g |} a
  = absorb_all hasher (blocks (take (Z.to_nat (max_bytes - total_read a)) c)) a.
Proof.
  intros Hmax. remember (length c) as n eqn:Hn.
  revert c a g Hn.
  induction (lt_wf n) as [n _ IH]. intros c a g -> Ha.
  set (r := max_bytes - total_read a).
  assert (Hk : to_read max_bytes a = Z.min 8192 r).
  { unfold to_read. destruct (Z.ltb_spec 0 max_bytes); [|lia].
    rewrite wrap64_small by lia. done. }
  rewrite read_loop_step. cbn [good]. rewrite Hk.
  replace (0 <? Z.min 8192 r) with true by (symmetry; apply Z.ltb_lt; lia).
  cbn [andb]. rewrite turn_spelled. cbn zeta. cbn [pending good]. rewrite Hk.
  replace (0 <? max_bytes) with true by (symmetry; apply Z.ltb_lt; lia).
  cbn [andb].
  destruct (decide (c = [])) as [->|Hc].
  { rewrite !take_nil, drop_nil, blocks_nil.
    change (0 <? Z.of_nat (length (@nil byte))) with false. cbv iota.
    replace (max_bytes <=? total_read a) with false
      by (symmetry; apply Z.leb_gt; lia).
    cbv iota. apply read_loop_at_end. }
  assert (0 < Z.of_nat (length c)) as Hlen.
  { destruct c; [done|]. cbn [length]. lia. }
  assert (take (Z.to_nat r) c ≠ []) as Hprefix.
  { intros Hnil%(f_equal length). rewrite length_take in Hnil.
    cbn [length] in Hnil. lia. }
  rewrite (blocks_cons _ Hprefix), take_take.
  replace (Z.to_nat 8192 `min` Z.to_nat r)%nat with (Z.to_nat (Z.min 8192 r))
    by lia.
  set (chunk := take (Z.to_nat (Z.min 8192 r)) c).
  assert (Z.of_nat (length chunk)
          = Z.min (Z.min 8192 r) (Z.of_nat (length c))) as Hchunk.
  { unfold chunk. rewrite length_take. lia. }
  replace (0 <? Z.of_nat (length chunk)) with true
    by (symmetry; apply Z.ltb_lt; lia).
  rewrite absorb_all_cons.
  assert (total_read (absorb hasher chunk a)
          = total_read a + Z.of_nat (length chunk)) as Htotal.
  { cbn [absorb total_read]. apply wrap64_small. lia. }
  rewrite Htotal.
  destruct (Z.leb_spec max_bytes (total_read a + Z.of_nat (length chunk)))
    as [Hbreak|Hmore]; cbv iota.
  - (* break: the limit is reached *)
    rewrite (drop_ge (take _ _)) by (rewrite length_take; lia).
    rewrite blocks_nil. reflexivity.
  - destruct (Z.leb_spec (Z.min 8192 r) (Z.of_nat (length c))) as [Hfull|Hend].
    + (* a full buffer, and more is allowed *)
      rewrite (IH (length (drop (Z.to_nat (Z.min 8192 r)) c)));
        [|rewrite length_drop; lia|reflexivity|lia].
      rewrite Htotal.
      replace (Z.min 8192 r) with 8192 by lia.
      replace (Z.to_nat (max_bytes - (total_read a + Z.of_nat (length chunk))))
        with (Z.to_nat r - Z.to_nat 8192)%nat by lia.
      rewrite take_drop_commute.
      replace (Z.to_nat 8192 + (Z.to_nat r - Z.to_nat 8192))%nat
        with (Z.to_nat r) by lia.
      reflexivity.
    + (* the end of the file *)
      rewrite read_loop_failed by reflexivity.
      rewrite (drop_ge (take _ _)) by (rewrite length_take; lia).
      rewrite blocks_nil. reflexivity.
Qed.

(** What the loop leaves in the accumulators, for a limit or for none. *)
Lemma read_loop_opened (max_bytes : Z) (c : list byte) :
  0 ≤ max_bytes < 2 ^ 64 →
  read_loop hasher max_bytes (opened c) initial
  = absorb_all hasher
      (blocks (if max_bytes =? 0 then c else take (Z.to_nat max_bytes) c))
      initial.
Proof.
  intros Hmax. unfold opened. destruct (Z.eqb_spec max_bytes 0) as [->|Hne].
  - apply read_loop_blocks.
  - rewrite read_loop_limited_blocks by (cbn [initial total_read]; lia).
    cbn [initial total_read]. by rewrite Z.sub_0_r.
Qed.

Lemma read_loop_in_range (max_bytes : Z) (c : list byte) :
  0 ≤ max_bytes < 2 ^ 64 →
  in_range (read_loop hasher max_bytes (opened c) initial).
Proof.
  intros Hmax. rewrite read_loop_opened by done.
  apply absorb_all_in_range, initial_in_range.
Qed.

(** X1: [compute_hash] returns the empty string, when the file cannot be
    opened, or else 32 characters, each of them one of 0-9 and a-f. *)
Theorem compute_hash_format (fs : node) (p : list string) (max_bytes : Z) :
  (ifstream_open fs p = None
   ∧ compute_hash hasher fs p max_bytes = EmptyString)
  ∨ (ifstream_open fs p ≠ None
     ∧ String.length (compute_hash hasher fs p max_bytes) = 32%nat
     ∧ Forall (λ c, is_hex_digit c = true)
              (list_ascii_of_string (compute_hash hasher fs p max_bytes))).
Proof.
  unfold compute_hash. destruct (ifstream_open fs p) as [file|]; [right|by left].
  split_and!; [done|apply hash_of_stream_length|].
  unfold hash_of_stream, hex_string. rewrite list_ascii_of_string_app.
  apply Forall_app. split; apply hex_field_hex.
Qed.

(** X2: the fingerprint is the rendering of the accumulators after the
    blocks of the file (of its first [max_bytes] bytes, with a limit) were
    absorbed in order, starting from zero; the blocks are consecutive pieces
    of the bytes, none empty, none longer than 8192, and all but the last of
    exactly 8192 bytes. *)
Theorem compute_hash_by_blocks (fs : node) (p : list string)
    (content : list byte) (max_bytes : Z) :
  ifstream_open fs p = Some (opened content) →
  0 ≤ max_bytes < 2 ^ 64 →
  let bytes :=
    if max_bytes =? 0 then content else take (Z.to_nat max_bytes) content in
  compute_hash hasher fs p max_bytes
    = hex_string (absorb_all hasher (blocks bytes) initial)
  ∧ concat (blocks bytes) = bytes
  ∧ Forall (λ b, 0 < Z.of_nat (length b) ≤ 8192) (blocks bytes)
  ∧ (∀ bs b, blocks bytes = bs ++ [b] →
             Forall (λ b', Z.of_nat (length b') = 8192) bs).
Proof.
  intros Hopen Hmax bytes. split_and!.
  - rewrite (compute_hash_opened _ _ _ _ _ Hopen). unfold hash_of_stream.
    by rewrite read_loop_opened.
  - apply concat_blocks.
  - apply blocks_lengths.
  - apply blocks_full.
Qed.

(** X3: with a limit the loop stops after [max_bytes] bytes, or at the end
    of a shorter file: that many bytes were read, never more than the
    limit. *)
Theorem read_loop_stops_at_limit (max_bytes : Z) (content : list byte) :
  0 < max_bytes < 2 ^ 64 →
  total_read (read_loop hasher max_bytes (opened content) initial)
  = Z.min max_bytes (Z.of_nat (length content)).
Proof.
  intros Hmax. rewrite read_loop_opened by lia.
  replace (max_bytes =? 0) with false by (symmetry; apply Z.eqb_neq; lia).
  rewrite absorb_all_total_read by (cbn; lia).
  rewrite concat_blocks, length_take. cbn [initial total_read].
  rewrite wrap64_small; lia.
Qed.

(** X4: the rendering loses nothing: two files that can be opened have the
    same fingerprint exactly when the loop leaves the same [hash1] and the
    same [hash2] for both. *)
Theorem compute_hash_eq_iff (fs : node) (p1 p2 : list string)
    (c1 c2 : list byte) (max_bytes : Z) :
  ifstream_open fs p1 = Some (opened c1) →
  ifstream_open fs p2 = Some (opened c2) →
  0 ≤ max_bytes < 2 ^ 64 →
  compute_hash hasher fs p1 max_bytes = compute_hash hasher fs p2 max_bytes
  ↔ same_hashes (read_loop hasher max_bytes (opened c1) initial)
                (read_loop hasher max_bytes (opened c2) initial).
Proof.
  intros Hopen1 Hopen2 Hmax.
  rewrite (compute_hash_opened _ _ _ _ _ Hopen1),
    (compute_hash_opened _ _ _ _ _ Hopen2).
  unfold hash_of_stream. split.
  - apply hex_string_inj; by apply read_loop_in_range.
  - apply same_hashes_rendered.
Qed.


(** The accumulators after a single chunk. *)
Lemma absorb_initial (chunk : list byte) :
  hash1 (absorb hasher chunk initial) = wrap64 (wrap64 (hasher chunk) + 0x9e3779b9)
  ∧ hash2 (absorb hasher chunk initial) = wrap64 (wrap64 (hasher chunk) * 31).
Proof.
  cbn [absorb initial hash1 hash2]. split.
  - rewrite Z.lxor_0_l, Z.shiftl_0_l, Z.shiftr_0_l.
    change (wrap64 0) with 0. rewrite !Z.add_0_r. reflexivity.
  - rewrite Z.lxor_0_l, Z.add_0_r. reflexivity.
Qed.

(** C5: with a positive limit the loop reads the first [limit] bytes of the
    file, which is all of it when the file is not longer, and the
    fingerprint is made of these bytes, block after block, and of no other;
    without a limit the same holds of the whole content; the partial step
    uses the limit 4096, the full step none. When the bytes read fit into
    the buffer, the two accumulators are [std::hash] of these bytes plus
    0x9e3779b9 and times 31. *)
Theorem compute_hash_byte_range (fs : node) (p : list string)
    (content : list byte) (limit : Z) :
  ifstream_open fs p = Some (opened content) →
  0 < limit < 2 ^ 64 →
  let covered := take (Z.to_nat limit) content in
  compute_hash hasher fs p limit
    = hex_string (absorb_all hasher (blocks covered) initial)
  ∧ concat (blocks covered) = covered
  ∧ total_read (read_loop hasher limit (opened content) initial)
    = Z.of_nat (length covered)
  ∧ (limit ≤ Z.of_nat (length content) → Z.of_nat (length covered) = limit)
  ∧ (Z.of_nat (length content) ≤ limit → covered = content)
  ∧ (∀ other,
       take (Z.to_nat limit) other = covered →
       hash_of_stream hasher limit (opened other)
       = compute_hash hasher fs p limit)
  ∧ (0 < Z.of_nat (length covered) ≤ 8192 →
     compute_hash hasher fs p limit
     = hex_field 16 (wrap64 (wrap64 (hasher covered) + 0x9e3779b9))
       +:+ hex_field 16 (wrap64 (wrap64 (hasher covered) * 31)))
  ∧ compute_hash hasher fs p 0
    = hex_string (absorb_all hasher (blocks content) initial)
  ∧ concat (blocks content) = content
  ∧ total_read (read_loop hasher 0 (opened content) initial)
    = wrap64 (Z.of_nat (length content))
  ∧ partial_hash hasher fs p
    = hex_string
        (absorb_all hasher (blocks (take (Z.to_nat 4096) content)) initial)
  ∧ full_hash hasher fs p
    = hex_string (absorb_all hasher (blocks content) initial)
  ∧ compute_hash hasher fs p limit = fingerprint_of hasher covered
  ∧ compute_hash hasher fs p 0 = fingerprint_of hasher content.
Proof.
  intros Hopen Hlimit covered.
  assert (∀ m, 0 < m < 2 ^ 64 →
               read_loop hasher m (opened content) initial
               = absorb_all hasher (blocks (take (Z.to_nat m) content)) initial)
    as Hloop.
  { intros m Hm. rewrite read_loop_opened by lia.
    by replace (m =? 0) with false by (symmetry; apply Z.eqb_neq; lia). }
  assert (read_loop hasher 0 (opened content) initial
          = absorb_all hasher (blocks content) initial) as Hwhole.
  { rewrite read_loop_opened by lia. change (0 =? 0) with true. reflexivity. }
  unfold partial_hash, full_hash, PARTIAL_READ_SIZE.
  rewrite !(compute_hash_opened _ _ _ _ _ Hopen). unfold hash_of_stream.
  rewrite Hwhole, (Hloop limit), (Hloop 4096) by lia. fold covered.
  split_and!.
  - reflexivity.
  - apply concat_blocks.
  - rewrite absorb_all_total_read by (cbn [initial total_read]; lia).
    rewrite concat_blocks. cbn [initial total_read]. unfold covered.
    rewrite length_take. apply wrap64_small. lia.
  - intros Hlong. unfold covered. rewrite length_take. lia.
  - intros Hshort. unfold covered. apply take_ge. lia.
  - intros other Hother. rewrite read_loop_opened by lia.
    replace (limit =? 0) with false by (symmetry; apply Z.eqb_neq; lia).
    cbv iota. by rewrite Hother.
  - intros Hone.
    assert (covered ≠ []) as Hne.
    { intros Hnil. rewrite Hnil in Hone. cbn [length] in Hone. lia. }
    rewrite (blocks_short covered Hne) by lia.
    change (absorb_all hasher [covered] initial)
      with (absorb hasher covered initial).
    unfold hex_string. by destruct (absorb_initial covered) as [-> ->].
  - reflexivity.
  - apply concat_blocks.
  - rewrite absorb_all_total_read by (cbn [initial total_read]; lia).
    rewrite concat_blocks. cbn [initial total_read]. f_equal; lia.
  - reflexivity.
  - reflexivity.
  - unfold fingerprint_of, hash_of_stream. f_equal.
    rewrite read_loop_opened by lia. change (0 =? 0) with true. reflexivity.
  - unfold fingerprint_of, hash_of_stream. by rewrite Hwhole.
Qed.


End LoopFacts.

(** ** Every entry once *)

Lemma list_directory_NoDup (here : list string)
    (children : list (string * node)) (es : list directory_entry) :
  Forall (λ c, ∀ here es,
            recursive_directory_iterator here c.2 = Returned es →
            unique_names c.2 = true →
            NoDup (entry_path <$> es)) children →
  unique_among unique_names children = true →
  list_directory recursive_directory_iterator here children = Returned es →
  NoDup (entry_path <$> es).
Proof.
  intros Hall. revert es.
  induction Hall as [|[name child] cs Hc _ IH]; intros es Hu;
    cbn [list_directory].
  - intros [= <-]. constructor.
  - cbn [snd] in Hc. cbn [unique_among] in Hu.
    apply andb_prop in Hu as [Hu Hcs]. apply andb_prop in Hu as [Hfresh Hchild].
    destruct (match child with
              | Directory _ _ =>
                  recursive_directory_iterator (here ++ [name]) child
              | _ => Returned []
              end) as [below|] eqn:Hbelow; [|done].
    destruct (list_directory recursive_directory_iterator here cs)
      as [after|] eqn:Hafter; [|done].
    cbn. intros [= <-]. specialize (IH after Hcs eq_refl).
    assert (∀ e, e ∈ below →
                 ∃ q, q ≠ [] ∧ entry_path e = here ++ name :: q) as Hb.
    { intros e He. destruct child as [c r|l cs'|t| |];
        try (injection Hbelow as <-; by inversion He).
      apply (recursive_directory_iterator_elem_of _ _ _ e Hbelow) in He
        as (q & Hq & Hp & _).
      exists q. by rewrite <-app_assoc in Hp. }
    assert (∀ e, e ∈ after →
                 ∃ name' q, name' ≠ name ∧ entry_path e = here ++ name' :: q)
      as Ha.
    { intros e He.
      assert (Forall (λ c, ∀ here es e,
                        recursive_directory_iterator here c.2 = Returned es →
                        e ∈ es ↔ ∃ q, q ≠ [] ∧ entry_path e = here ++ q
                                       ∧ reaches c.2 q (entry_node e)) cs)
        as Hspec.
      { apply Forall_forall. intros c _ ? ? ?.
        apply recursive_directory_iterator_elem_of. }
      destruct (proj1 (list_directory_elem_of here cs after e Hspec Hafter) He)
        as (name' & child' & q & Hin & Hp & _).
      exists name', q. split; [|done]. intros ->.
      destruct (find_child name cs) eqn:Hfind; [done|].
      by apply find_child_None with (child := child') in Hfind. }
    assert (NoDup (entry_path <$> below)) as Hnb.
    { destruct child as [c r|l cs'|t| |];
        try (injection Hbelow as <-; constructor).
      by apply (Hc (here ++ [name])). }
    rewrite fmap_cons, fmap_app. cbn [entry_path].
    apply NoDup_cons. split; [|apply NoDup_app; split_and!; [done| |done]].
    + rewrite elem_of_app, !list_elem_of_fmap.
      intros [(e & Hp & He)|(e & Hp & He)].
      * apply Hb in He as (q & Hq & Hp'). rewrite Hp' in Hp.
        apply app_inv_head in Hp. injection Hp as <-. done.
      * apply Ha in He as (name' & q & Hne & Hp'). rewrite Hp' in Hp.
        apply app_inv_head in Hp. injection Hp as <- _. done.
    + intros p (e & -> & He)%list_elem_of_fmap (e' & Hp & He')%list_elem_of_fmap.
      apply Hb in He as (q & _ & Hq). apply Ha in He' as (name' & q' & Hne & Hq').
      rewrite Hq, Hq' in Hp. apply app_inv_head in Hp. injection Hp as <- _.
      done.
Qed.

Lemma recursive_directory_iterator_NoDup (n : node) :
  ∀ (here : list string) (es : list directory_entry),
    recursive_directory_iterator here n = Returned es →
    unique_names n = true →
    NoDup (entry_path <$> es).
Proof.
  induction n as [c r|l cs IH|t| |] using node_nested_ind; try done.
  intros here es. destruct l; [|done].
  cbn [recursive_directory_iterator unique_names]. intros Hes Hu.
  by apply (list_directory_NoDup here cs).
Qed.

Lemma NoDup_fmap_filter {A B : Type} (f : A → B) (P : A → Prop)
    `{∀ x, Decision (P x)} (l : list A) :
  NoDup (f <$> l) → NoDup (f <$> filter P l).
Proof.
  intros Hl. apply (sublist_NoDup (f <$> filter P l) (f <$> l) Hl).
  apply fmap_sublist, sublist_filter.
Qed.

(** No path is twice in a size group. *)
Lemma size_group_NoDup (fs : node) (size_groups : gmap Z (list (list string)))
    (size : Z) (paths : list (list string)) :
  unique_names fs = true →
  group_by_size fs = Returned size_groups →
  size_groups !! size = Some paths →
  NoDup paths.
Proof.
  intros Hu Hgroups Hpaths.
  destruct (recursive_directory_iterator [] fs) as [entries|] eqn:Hscan.
  2:{ unfold group_by_size in Hgroups. by rewrite Hscan in Hgroups. }
  destruct (proj1 (group_by_size_lookup _ _ _ _ _ Hscan Hgroups) Hpaths)
    as [Heq _].
  rewrite Heq. unfold members_with. apply NoDup_fmap_filter.
  by apply (recursive_directory_iterator_NoDup fs []).
Qed.

Lemma at_most_one_with_key {A K : Type} `{EqDecision K} (f : A → option K)
    (k : K) (l : list A) :
  NoDup (omap f l) → (length (filter (λ x, f x = Some k) l) ≤ 1)%nat.
Proof.
  induction l as [|x l IH]; [cbn; lia|].
  cbn [omap list_omap]. rewrite filter_cons.
  destruct (f x) as [k'|] eqn:Hx.
  - intros [Hnotin Hl]%NoDup_cons. specialize (IH Hl).
    destruct (decide (Some k' = Some k)) as [[= ->]|]; [|done].
    cbn [length].
    destruct (filter (λ y, f y = Some k) l) as [|y ys] eqn:Hf; [cbn; lia|].
    assert (y ∈ filter (λ y, f y = Some k) l) as [Hy Hin]%list_elem_of_filter
      by (rewrite Hf; apply list_elem_of_here).
    destruct Hnotin. apply list_elem_of_omap. by exists y.
  - intros Hl. rewrite decide_False by done. by apply IH.
Qed.

Section PipelineFacts.

Variable hasher : list byte → Z.

(** A confirmed group is what two filters leave of a size group. *)
Lemma confirmed_shape (fs : node) (size_groups : gmap Z (list (list string)))
    (g : list (list string)) :
  confirmed hasher fs size_groups g →
  ∃ size paths phash fhash,
    size_groups !! size = Some paths
    ∧ empty phash = false ∧ empty fhash = false
    ∧ g = filter (λ p, full_hash hasher fs p = fhash)
            (filter (λ p, partial_hash hasher fs p = phash) paths).
Proof.
  intros (size & paths & Hsize & phash & cands & fhash & Hp & _ & Hf & _).
  apply hash_groups_lookup in Hp as (-> & _ & Hph).
  apply hash_groups_lookup in Hf as (-> & _ & Hfh).
  by exists size, paths, phash, fhash.
Qed.

Lemma emitted_shape (fs : node) (duplicate_groups : list (list (list string)))
    (g : list (list string)) :
  find_duplicates hasher fs = Returned duplicate_groups →
  g ∈ duplicate_groups →
  ∃ size_groups size paths phash fhash,
    group_by_size fs = Returned size_groups
    ∧ size_groups !! size = Some paths
    ∧ empty phash = false ∧ empty fhash = false
    ∧ g = filter (λ p, full_hash hasher fs p = fhash)
            (filter (λ p, partial_hash hasher fs p = phash) paths).
Proof.
  intros Hrun Hin.
  destruct (find_duplicates_returns _ _ _ Hrun) as (size_groups & _ & Hgroups & _).
  apply (find_duplicates_elem_of _ fs size_groups _ _ Hgroups Hrun) in Hin.
  apply confirmed_shape in Hin as (size & paths & phash & fhash & ?).
  by exists size_groups, size, paths, phash, fhash.
Qed.

(** X6: the members of a duplicate group can all be opened, and they have
    one partial fingerprint and one full fingerprint. *)
Theorem duplicate_group_same_fingerprint (fs : node)
    (duplicate_groups : list (list (list string))) (g : list (list string)) :
  find_duplicates hasher fs = Returned duplicate_groups →
  g ∈ duplicate_groups →
  ∃ phash fhash,
    String.length phash = 32%nat ∧ String.length fhash = 32%nat
    ∧ ∀ p, p ∈ g →
           ifstream_open fs p ≠ None
           ∧ partial_hash hasher fs p = phash
           ∧ full_hash hasher fs p = fhash.
Proof.
  intros Hrun Hin.
  destruct (emitted_shape _ _ _ Hrun Hin)
    as (size_groups & size & paths & phash & fhash & _ & _ & Hph & Hfh & ->).
  assert (∀ p, p ∈ filter (λ p, full_hash hasher fs p = fhash)
                     (filter (λ p, partial_hash hasher fs p = phash) paths) →
               ifstream_open fs p ≠ None
               ∧ partial_hash hasher fs p = phash
               ∧ full_hash hasher fs p = fhash) as Hall.
  { intros p [Hf [Hp _]%list_elem_of_filter]%list_elem_of_filter.
    split_and!; [|done..]. intros Hopen.
    apply (compute_hash_empty hasher fs p 0) in Hopen.
    unfold full_hash in Hf. rewrite Hf in Hopen. congruence. }
  exists phash, fhash. split_and!; [| |done].
  - destruct (find_duplicates_returns _ _ _ Hrun) as (sg & _ & Hgroups & _).
    apply (find_duplicates_elem_of _ fs sg _ _ Hgroups Hrun) in Hin.
    apply confirmed_members in Hin as [Hlen _].
    destruct (filter _ (filter _ paths)) as [|p l] eqn:Hg; [cbn in Hlen; lia|].
    destruct (Hall p) as (Hopen & <- & _); [apply list_elem_of_here|].
    unfold partial_hash, compute_hash.
    destruct (ifstream_open fs p); [apply hash_of_stream_length|done].
  - destruct (find_duplicates_returns _ _ _ Hrun) as (sg & _ & Hgroups & _).
    apply (find_duplicates_elem_of _ fs sg _ _ Hgroups Hrun) in Hin.
    apply confirmed_members in Hin as [Hlen _].
    destruct (filter _ (filter _ paths)) as [|p l] eqn:Hg; [cbn in Hlen; lia|].
    destruct (Hall p) as (Hopen & _ & <-); [apply list_elem_of_here|].
    unfold full_hash, compute_hash.
    destruct (ifstream_open fs p); [apply hash_of_stream_length|done].
Qed.

(** X7: no duplicate group lists a path twice, and two duplicate groups
    that share a path are the same group. *)
Theorem duplicate_groups_disjoint (fs : node)
    (duplicate_groups : list (list (list string))) :
  unique_names fs = true →
  find_duplicates hasher fs = Returned duplicate_groups →
  (∀ g, g ∈ duplicate_groups → NoDup g)
  ∧ (∀ g1 g2 p,
       g1 ∈ duplicate_groups → g2 ∈ duplicate_groups →
       p ∈ g1 → p ∈ g2 → g1 = g2).
Proof.
  intros Hu Hrun. split.
  - intros g Hin.
    destruct (emitted_shape _ _ _ Hrun Hin)
      as (size_groups & size & paths & phash & fhash & Hgroups & Hpaths & _ & _ & ->).
    do 2 apply NoDup_filter. by eapply size_group_NoDup.
  - intros g1 g2 p Hin1 Hin2 Hp1 Hp2.
    destruct (emitted_shape _ _ _ Hrun Hin1)
      as (sg1 & size1 & paths1 & ph1 & fh1 & Hg1 & Hs1 & _ & _ & ->).
    destruct (emitted_shape _ _ _ Hrun Hin2)
      as (sg2 & size2 & paths2 & ph2 & fh2 & Hg2 & Hs2 & _ & _ & ->).
    rewrite Hg1 in Hg2. injection Hg2 as <-.
    apply list_elem_of_filter in Hp1 as [Hf1 [Hpa1 Hpp1]%list_elem_of_filter].
    apply list_elem_of_filter in Hp2 as [Hf2 [Hpa2 Hpp2]%list_elem_of_filter].
    destruct (size_group_member_size fs sg1 size1 paths1 p Hu Hg1 Hs1 Hpp1)
      as (n1 & Hn1 & Hr1).
    destruct (size_group_member_size fs sg1 size2 paths2 p Hu Hg1 Hs2 Hpp2)
      as (n2 & Hn2 & Hr2).
    rewrite Hn1 in Hn2. injection Hn2 as <-.
    pose proof (regular_of_size_unique _ _ _ Hr1 Hr2) as <-.
    rewrite Hs1 in Hs2. injection Hs2 as <-.
    by rewrite <-Hf1, <-Hf2, <-Hpa1, <-Hpa2.
Qed.

(** X8: a duplicate group is complete: with a file it holds every file of
    the tree that has the same bytes and can be opened. *)
Theorem duplicate_group_complete (fs : node)
    (duplicate_groups : list (list (list string))) (g : list (list string))
    (p q : list string) (content : list byte) :
  unique_names fs = true →
  find_duplicates hasher fs = Returned duplicate_groups →
  g ∈ duplicate_groups → p ∈ g →
  ifstream_open fs p = Some (opened content) →
  ifstream_open fs q = Some (opened content) →
  q ∈ g.
Proof.
  intros Hu Hrun Hin Hp Hopen_p Hopen_q.
  destruct (emitted_shape _ _ _ Hrun Hin)
    as (size_groups & size & paths & phash & fhash & Hgroups & Hpaths & _ & _ & ->).
  apply list_elem_of_filter in Hp as [Hf [Hpa Hpp]%list_elem_of_filter].
  destruct (size_group_member_size fs size_groups size paths p Hu Hgroups Hpaths Hpp)
    as (n & Hn & c & r & Hdata & ->).
  apply ifstream_open_Some in Hopen_p as Hp'. destruct Hp' as (n' & Hn' & Hd').
  rewrite Hn in Hn'. injection Hn' as <-.
  rewrite Hdata in Hd'. injection Hd' as -> ->.
  apply ifstream_open_Some in Hopen_q as Hq'. destruct Hq' as (nq & Hnq & Hdq).
  assert (q ≠ []) as Hq.
  { intros ->. injection Hnq as <-.
    destruct (find_duplicates_returns _ _ _ Hrun) as (_ & entries & _ & Hscan).
    destruct (iterator_returns_directory _ _ Hscan) as [cs ->]. done. }
  assert (q ∈ paths) as Hqp.
  { apply (size_group_elem_of fs size_groups _ paths q Hgroups Hpaths).
    split; [done|]. exists nq. split; [by apply lookup_path_reaches|].
    by exists content, true. }
  assert (∀ m, compute_hash hasher fs q m = compute_hash hasher fs p m) as Hsame.
  { intros m. by rewrite (compute_hash_opened _ _ _ _ _ Hopen_p),
                         (compute_hash_opened _ _ _ _ _ Hopen_q). }
  rewrite !list_elem_of_filter. unfold full_hash, partial_hash in *.
  by rewrite !Hsame.
Qed.

(** X9: when the scan returns and no two entries that denote regular
    files have the same size, no size group is left, no group is reported
    and nothing is wasted. *)
Theorem distinct_sizes_no_duplicates (fs : node)
    (entries : list directory_entry)
    (size_groups : gmap Z (list (list string))) :
  recursive_directory_iterator [] fs = Returned entries →
  group_by_size fs = Returned size_groups →
  NoDup (omap size_key entries) →
  size_groups = ∅
  ∧ find_duplicates hasher fs = Returned []
  ∧ main hasher fs = Returned (Some {| lines := []; total_wasted := 0 |}).
Proof.
  intros Hscan Hgroups Hsizes.
  assert (size_groups = ∅) as ->.
  { apply map_empty. intros size.
    destruct (size_groups !! size) as [paths|] eqn:Hpaths; [|done].
    apply (group_by_size_lookup _ _ _ _ _ Hscan Hgroups) in Hpaths
      as [-> Hlen].
    unfold members_with in Hlen. rewrite length_fmap in Hlen.
    pose proof (at_most_one_with_key size_key size entries Hsizes). lia. }
  assert (find_duplicates hasher fs = Returned []) as Hfound.
  { unfold find_duplicates. rewrite Hgroups. cbn [mbind outcome_bind].
    by rewrite map_to_list_empty. }
  split_and!; [done..|].
  destruct (iterator_returns_directory _ _ Hscan) as [cs ->].
  unfold main. by rewrite Hfound.
Qed.

(** X14: the size groups are disjoint lists without repetition: no path is
    twice in a size group, and no path is in the groups of two sizes. *)
Theorem size_groups_partition (fs : node)
    (size_groups : gmap Z (list (list string))) :
  unique_names fs = true →
  group_by_size fs = Returned size_groups →
  (∀ size paths, size_groups !! size = Some paths → NoDup paths)
  ∧ (∀ size1 size2 paths1 paths2 p,
       size_groups !! size1 = Some paths1 →
       size_groups !! size2 = Some paths2 →
       p ∈ paths1 → p ∈ paths2 → size1 = size2).
Proof.
  intros Hu Hgroups. split.
  - intros size paths Hpaths. by eapply size_group_NoDup.
  - intros size1 size2 paths1 paths2 p Hs1 Hs2 Hp1 Hp2.
    destruct (size_group_member_size fs _ size1 paths1 p Hu Hgroups Hs1 Hp1)
      as (n1 & Hn1 & Hr1).
    destruct (size_group_member_size fs _ size2 paths2 p Hu Hgroups Hs2 Hp2)
      as (n2 & Hn2 & Hr2).
    rewrite Hn1 in Hn2. injection Hn2 as <-.
    by eapply regular_of_size_unique.
Qed.


End PipelineFacts.

(** ** The entry of [main] *)

Lemma back_append_last (s : string) (c : ascii) :
  back (s +:+ String c EmptyString) = Some c.
Proof.
  induction s as [|a s IH]; [done|].
  simpl. simpl in IH. by destruct (s +:+ String c EmptyString).
Qed.

Lemma substring_prefix (s t : string) :
  substring 0 (String.length s) (s +:+ t) = s.
Proof.
  induction s as [|a s IH]; simpl.
  - by destruct t.
  - by rewrite IH.
Qed.

Lemma substring_length (n m : nat) (s : string) :
  (n + m ≤ String.length s)%nat → String.length (substring n m s) = m.
Proof.
  revert n m. induction s as [|a s IH]; intros n m Hlen; simpl in *.
  - destruct n, m; simpl; lia.
  - destruct n as [|n].
    + destruct m as [|m]; [done|]. simpl. rewrite (IH 0%nat m); lia.
    + apply IH. lia.
Qed.

Lemma strip_quotes_quoted (s : string) (q : ascii) :
  q = double_quote ∨ q = single_quote →
  strip_quotes (String q (s +:+ String q EmptyString)) = s.
Proof.
  intros Hq. unfold strip_quotes.
  assert (String.length (String q (s +:+ String q EmptyString))
          = S (S (String.length s))) as Hlen.
  { simpl. rewrite string_length_app. simpl. lia. }
  rewrite Hlen. cbn [Nat.leb front].
  assert (back (String q (s +:+ String q EmptyString)) = Some q) as ->.
  { pose proof (back_append_last s q) as Hback. simpl.
    by destruct (s +:+ String q EmptyString). }
  assert ((Ascii.eqb q double_quote && Ascii.eqb q double_quote)
          || (Ascii.eqb q single_quote && Ascii.eqb q single_quote) = true)
    as ->.
  { destruct Hq as [->| ->]; done. }
  replace (S (S (String.length s)) - 2)%nat with (String.length s) by lia.
  simpl. apply substring_prefix.
Qed.

(** X10: the quotes of the path. One pair of matching quotes, double or
    single, around a string is taken off and gives the string; a string of
    fewer than two characters, one whose ends differ and one that does not
    begin with a quote stay as they are; what is taken off is nothing or
    two characters. *)
Theorem strip_quotes_spec :
  (∀ s q,
     q = double_quote ∨ q = single_quote →
     strip_quotes (String q (s +:+ String q EmptyString)) = s)
  ∧ (∀ s, (String.length s < 2)%nat → strip_quotes s = s)
  ∧ (∀ s, front s ≠ back s → strip_quotes s = s)
  ∧ (∀ s,
       front s ≠ Some double_quote → front s ≠ Some single_quote →
       strip_quotes s = s)
  ∧ (∀ s,
       strip_quotes s = s
       ∨ (String.length (strip_quotes s) + 2 = String.length s)%nat).
Proof.
  split_and!.
  - apply strip_quotes_quoted.
  - intros s Hlen. unfold strip_quotes.
    by destruct (Nat.leb_spec 2 (String.length s)); [lia|].
  - intros s Hends. unfold strip_quotes.
    destruct (2 <=? String.length s)%nat; [|done].
    destruct (front s) as [c1|] eqn:Hfront; [|done].
    destruct (back s) as [c2|] eqn:Hback; [|done].
    destruct (Ascii.eqb_spec c1 double_quote) as [E1|E1],
      (Ascii.eqb_spec c2 double_quote) as [E2|E2],
      (Ascii.eqb_spec c1 single_quote) as [E3|E3],
      (Ascii.eqb_spec c2 single_quote) as [E4|E4];
      cbn; try reflexivity; exfalso; apply Hends; congruence.
  - intros s Hd Hs. unfold strip_quotes.
    destruct (2 <=? String.length s)%nat; [|done].
    destruct (front s) as [c1|] eqn:Hfront; [|done].
    destruct (back s) as [c2|] eqn:Hback; [|done].
    destruct (Ascii.eqb_spec c1 double_quote) as [E1|E1];
      [by destruct Hd; rewrite E1|].
    destruct (Ascii.eqb_spec c1 single_quote) as [E3|E3];
      [by destruct Hs; rewrite E3|]. reflexivity.
  - intros s. unfold strip_quotes.
    destruct (Nat.leb_spec 2 (String.length s)); [|by left].
    destruct (front s) as [c1|] eqn:Hfront; [|by left].
    destruct (back s) as [c2|] eqn:Hback; [|by left].
    destruct (_ || _); [right|by left].
    rewrite substring_length; lia.
Qed.

Section EntryFacts.

Variable hasher : list byte → Z.

(** X11: a path in one pair of matching quotes is treated as the path
    itself (which is not empty and not in such quotes in its turn). *)
Theorem main_program_quoted (world : string → option node) (s : string)
    (q : ascii) :
  q = double_quote ∨ q = single_quote →
  empty s = false →
  strip_quotes s = s →
  main_program hasher world (String q (s +:+ String q EmptyString))
  = main_program hasher world s.
Proof.
  intros Hq Hs Hplain. unfold main_program.
  rewrite strip_quotes_quoted, Hplain, Hs by done. done.
Qed.


End EntryFacts.

(** ** The further statements at work *)

Lemma compute_hash_byte_range_witness :
  compute_hash fnv1a late_difference_tree ["x"%string] 4096
  = hex_string
      (absorb_all fnv1a
         (blocks (take (Z.to_nat 4096) (repeat x41 (Z.to_nat 6000)))) initial)
  ∧ total_read
      (read_loop fnv1a 4096 (opened (repeat x41 (Z.to_nat 6000))) initial)
    = Z.of_nat (length (take (Z.to_nat 4096) (repeat x41 (Z.to_nat 6000)))).
Proof.
  pose proof (compute_hash_byte_range fnv1a late_difference_tree ["x"%string]
                (repeat x41 (Z.to_nat 6000)) 4096 eq_refl) as Hrange.
  cbv zeta in Hrange. destruct Hrange as (Hhash & _ & Hread & _); [lia|].
  exact (conj Hhash Hread).
Defined.

Lemma compute_hash_by_blocks_witness :
  compute_hash fnv1a sample_tree ["a"%string] 64
  = hex_string
      (absorb_all fnv1a (blocks (take (Z.to_nat 64) (repeat x41 100))) initial).
Proof.
  apply (compute_hash_by_blocks fnv1a sample_tree ["a"%string]
           (repeat x41 100) 64); [reflexivity|lia].
Defined.

Lemma read_loop_stops_at_limit_witness :
  total_read (read_loop fnv1a 64 (opened (repeat x41 100)) initial)
  = Z.min 64 (Z.of_nat (length (repeat x41 100))).
Proof. apply (read_loop_stops_at_limit fnv1a 64 (repeat x41 100)). lia. Defined.

Lemma compute_hash_eq_iff_witness :
  compute_hash fnv1a sample_tree ["a"%string] 4096
  = compute_hash fnv1a sample_tree ["c"%string] 4096
  ↔ same_hashes (read_loop fnv1a 4096 (opened (repeat x41 100)) initial)
                (read_loop fnv1a 4096 (opened (repeat x42 100)) initial).
Proof.
  apply (compute_hash_eq_iff fnv1a sample_tree ["a"%string] ["c"%string]);
    [reflexivity|reflexivity|lia].
Defined.


Lemma duplicate_group_same_fingerprint_witness :
  ∃ phash fhash,
    String.length phash = 32%nat ∧ String.length fhash = 32%nat
    ∧ ∀ p, p ∈ [["a"%string]; ["b"%string]] →
           ifstream_open sample_tree p ≠ None
           ∧ partial_hash fnv1a sample_tree p = phash
           ∧ full_hash fnv1a sample_tree p = fhash.
Proof.
  apply (duplicate_group_same_fingerprint fnv1a sample_tree
           [[["a"%string]; ["b"%string]]]);
    [vm_compute; reflexivity|apply list_elem_of_here].
Defined.

Lemma duplicate_groups_disjoint_witness :
  NoDup [["a"%string]; ["b"%string]].
Proof.
  apply (duplicate_groups_disjoint fnv1a sample_tree
           [[["a"%string]; ["b"%string]]]);
    [reflexivity|vm_compute; reflexivity|apply list_elem_of_here].
Defined.

Lemma duplicate_group_complete_witness :
  ["b"%string] ∈ [["a"%string]; ["b"%string]].
Proof.
  apply (duplicate_group_complete fnv1a sample_tree
           [[["a"%string]; ["b"%string]]] [["a"%string]; ["b"%string]]
           ["a"%string] ["b"%string] (repeat x41 100));
    [reflexivity|vm_compute; reflexivity|apply list_elem_of_here
    |apply list_elem_of_here|reflexivity|reflexivity].
Defined.

Lemma distinct_sizes_no_duplicates_witness :
  find_duplicates fnv1a distinct_tree = Returned []
  ∧ main fnv1a distinct_tree
    = Returned (Some {| lines := []; total_wasted := 0 |}).
Proof.
  apply (distinct_sizes_no_duplicates fnv1a distinct_tree _ ∅ eq_refl eq_refl).
  apply (bool_decide_unpack _). vm_compute. exact I.
Defined.

Lemma main_program_quoted_witness :
  main_program fnv1a sample_world
    (String double_quote ("dir" +:+ String double_quote EmptyString))
  = main_program fnv1a sample_world "dir".
Proof.
  apply (main_program_quoted fnv1a sample_world "dir" double_quote);
    [by left|reflexivity|reflexivity].
Defined.



Lemma size_groups_partition_witness :
  NoDup [["a"%string]; ["l"%string]].
Proof.
  apply (proj1 (size_groups_partition linked_tree
                  {[1 := [["a"%string]; ["l"%string]]]} eq_refl eq_refl)
           1 [["a"%string]; ["l"%string]]).
  reflexivity.
Defined.
